(** * N-way merge of sorted lists (NWayMerge.cpp)

    A shallow embedding of [NWayMerger]: the heap-driven merge engine
    [MergeLists], and the two file adapters [ReadInputFile] and
    [WriteOutputFile] around it.

    Conventions.
    - [int] values are carried as [Z]; the engine only copies and
      compares them, so no wrap-around arises inside [MergeLists].
    - [size_t] positions are [nat]: the only arithmetic on them is
      [element_index + 1] with [element_index < size()].
    - [std::priority_queue<Element, std::vector<Element>,
      std::greater<Element>>] is a library type.  It is taken through the
      interface [PriorityQueue], whose laws are those the C++ standard
      gives for [push], [top], [pop] and [empty] over a comparator that is
      a strict weak order; the order in which equal-valued candidates
      leave the queue is left to each instance.
    - A C++ exception is an [Err] result; undefined behaviour (an index
      out of range, [top] of an empty queue) is the [Undefined] outcome.
    - A file is its text, or nothing when it cannot be opened.  Input
      streams follow the C++ standard's formatted and unformatted input
      functions in the classic "C" locale, with a 32-bit [int]; a locale
      that groups digits reads a numeral without separators the same way.
      Output streams take their locale as a parameter: [main] makes the
      locale of the environment the global one before any stream is
      built, and [operator<<] for [int] writes the digit groups of the
      stream's locale.
    - A loop that the code bounds by the data runs here on fuel; each
      such definition comes with the lemma that its fuel is enough. *)

From Stdlib Require Import Ascii String DecimalString DecimalPos.
From Stdlib Require Import List ZArith Lia Bool Arith PeanoNat.
From Stdlib Require Import Permutation Sorted.
Import ListNotations.

Local Open Scope Z_scope.

(** ** Data model *)

(** [struct Element]: a candidate in the heap. *)
Record Element : Type := mkElement {
  value : Z;
  list_index : nat;
  element_index : nat
}.

(** [Element::operator>]: compares the values and nothing else. *)
Definition Element_gt (a other : Element) : bool :=
  value a >? value other.

(** ** The priority queue interface

    [contents] is the multiset of elements a queue holds, as a list up to
    permutation.  With [std::greater<Element>] as comparator, [top] is an
    element that [operator>] puts above no other element of the queue. *)
Class PriorityQueue (Q : Type) : Type := {
  pq_new : Q;
  pq_empty : Q -> bool;
  pq_top : Q -> option Element;
  pq_push : Element -> Q -> Q;
  pq_pop : Q -> Q;
  contents : Q -> list Element;
  contents_new : contents pq_new = [];
  empty_spec : forall q, pq_empty q = true <-> contents q = [];
  push_spec : forall e q, Permutation (contents (pq_push e q)) (e :: contents q);
  top_some : forall q, contents q <> [] -> exists e, pq_top q = Some e;
  top_min : forall q e, pq_top q = Some e ->
            Forall (fun x => Element_gt e x = false) (contents q);
  pop_spec : forall q e, pq_top q = Some e ->
             Permutation (contents q) (e :: contents (pq_pop q))
}.

(** A queue reaches its elements only through the comparator, which reads
    [value] alone: renaming the other two fields of every element commutes
    with each operation. *)
Class ValueOblivious (Q : Type) `{PriorityQueue Q} : Type := {
  pq_relabel : (Element -> Element) -> Q -> Q;
  relabel_new : forall f, pq_relabel f pq_new = pq_new;
  relabel_empty : forall f q, pq_empty (pq_relabel f q) = pq_empty q;
  relabel_top : forall f q, (forall e, value (f e) = value e) ->
                pq_top (pq_relabel f q) = option_map f (pq_top q);
  relabel_push : forall f e q, (forall e, value (f e) = value e) ->
                 pq_relabel f (pq_push e q) = pq_push (f e) (pq_relabel f q);
  relabel_pop : forall f q, (forall e, value (f e) = value e) ->
                pq_relabel f (pq_pop q) = pq_pop (pq_relabel f q)
}.

(** ** The merge engine *)

(** How a run of the drain loop ends. *)
Inductive outcome : Type :=
| Done (result : list Z)
| Undefined
| OutOfFuel.

Section MergeEngine.
Context {Q : Type} {PQ : PriorityQueue Q}.

(** Body of the seeding loop at index [i]:
    [if (!lists[i].empty()) min_heap.push({lists[i][0], i, 0})]. *)
Definition seed_step (lists : list (list Z)) (min_heap : Q) (i : nat) : Q :=
  match nth_error lists i with
  | Some (v :: _) => pq_push (mkElement v i 0) min_heap
  | _ => min_heap
  end.

(** [for (size_t i = 0; i < lists.size(); ++i)] over a fresh queue. *)
Definition seed (lists : list (list Z)) : Q :=
  fold_left (seed_step lists) (seq 0 (length lists)) pq_new.

(** One pass through the body of [while (!min_heap.empty())].  [None]
    is undefined behaviour: [top] on an empty queue or an index out of
    range. *)
Definition drain_body (lists : list (list Z)) (min_heap : Q) (result : list Z)
  : option (Q * list Z) :=
  match pq_top min_heap with
  | None => None
  | Some min_el =>
    let min_heap1 := pq_pop min_heap in
    let result1 := (result ++ [value min_el])%list in
    let next_element_index := (element_index min_el + 1)%nat in
    let list_idx := list_index min_el in
    match nth_error lists list_idx with
    | None => None
    | Some src =>
      if (next_element_index <? length src)%nat then
        match nth_error src next_element_index with
        | None => None
        | Some v =>
          Some (pq_push (mkElement v list_idx next_element_index) min_heap1,
                result1)
        end
      else Some (min_heap1, result1)
    end
  end.

(** The drain loop; [fuel] bounds the number of passes. *)
Fixpoint drain (fuel : nat) (lists : list (list Z)) (min_heap : Q)
         (result : list Z) : outcome :=
  if pq_empty min_heap then Done result
  else match fuel with
       | O => OutOfFuel
       | S fuel' =>
         match drain_body lists min_heap result with
         | None => Undefined
         | Some (min_heap', result') => drain fuel' lists min_heap' result'
         end
       end.

(** [MergeLists] with an explicit bound on the passes of its loop. *)
Definition MergeLists_run (fuel : nat) (lists : list (list Z)) : outcome :=
  drain fuel lists (seed lists) [].

(** [M], the total number of elements. *)
Definition total_length (lists : list (list Z)) : nat :=
  length (concat lists).

(** [MergeLists]: one pass per element is enough (see
    [MergeLists_run_total]). *)
Definition MergeLists (lists : list (list Z)) : list Z :=
  match MergeLists_run (total_length lists) lists with
  | Done result => result
  | _ => []
  end.

(** The state before each pass of the drain loop: queue and output after
    [n] passes ([None] once the loop has left, or on undefined
    behaviour). *)
Fixpoint drain_state (n : nat) (lists : list (list Z)) : option (Q * list Z) :=
  match n with
  | O => Some (seed lists, [])
  | S n' =>
    match drain_state n' lists with
    | Some (q, result) =>
      if pq_empty q then None else drain_body lists q result
    | None => None
    end
  end.

(** The candidates in the order the drain loop extracts them. *)
Fixpoint extraction_order (fuel : nat) (lists : list (list Z)) (min_heap : Q)
  : list Element :=
  if pq_empty min_heap then []
  else match fuel with
       | O => []
       | S fuel' =>
         match pq_top min_heap, drain_body lists min_heap [] with
         | Some min_el, Some (min_heap', _) =>
           min_el :: extraction_order fuel' lists min_heap'
         | _, _ => []
         end
       end.

End MergeEngine.

(** ** Two list-backed queues

    Both keep the elements in arrival order and scan for the minimum.
    [FirstMin] hands out the earliest of the equal-valued minima,
    [LastMin] the latest.  They show that the interface can be met, and
    that it leaves the order among equal values open. *)
Module FirstMin.

Fixpoint top (q : list Element) : option Element :=
  match q with
  | [] => None
  | e :: q' =>
    match top q' with
    | None => Some e
    | Some m => if Element_gt e m then Some m else Some e
    end
  end.

Fixpoint pop (q : list Element) : list Element :=
  match q with
  | [] => []
  | e :: q' =>
    match top q' with
    | None => []
    | Some m => if Element_gt e m then e :: pop q' else q'
    end
  end.

End FirstMin.

Module LastMin.

Fixpoint top (q : list Element) : option Element :=
  match q with
  | [] => None
  | e :: q' =>
    match top q' with
    | None => Some e
    | Some m => if Element_gt m e then Some e else Some m
    end
  end.

Fixpoint pop (q : list Element) : list Element :=
  match q with
  | [] => []
  | e :: q' =>
    match top q' with
    | None => []
    | Some m => if Element_gt m e then q' else e :: pop q'
    end
  end.

End LastMin.

(** Shared by both: [push_back] on arrival, [empty] on the list. *)
Definition list_push (e : Element) (q : list Element) : list Element :=
  (q ++ [e])%list.

Definition list_empty (q : list Element) : bool :=
  match q with [] => true | _ => false end.

(** ** Streams

    The part of [<istream>] that [ReadInputFile] relies on, in the classic
    "C" locale: a stream is the text still to be read and the two state
    bits the code tests. *)
Record istream : Type := mkIstream {
  buffer : list ascii;
  eofbit : bool;
  failbit : bool
}.

Definition good (s : istream) : bool := negb (eofbit s) && negb (failbit s).

(** A stream just opened on [content]. *)
Definition open_stream (content : list ascii) : istream :=
  mkIstream content false false.

Definition newline : ascii := ascii_of_nat 10.
Definition space : ascii := ascii_of_nat 32.

Definition isspace (c : ascii) : bool :=
  let n := nat_of_ascii c in
  ((n =? 32) || ((9 <=? n) && (n <=? 13)))%nat.

Definition isdigit (c : ascii) : bool :=
  let n := nat_of_ascii c in
  ((48 <=? n) && (n <=? 57))%nat.

Fixpoint skip_ws (buf : list ascii) : list ascii :=
  match buf with
  | [] => []
  | c :: rest => if isspace c then skip_ws rest else buf
  end.

(** The sentry of a formatted input function: a stream that is not good
    fails; otherwise leading white space is skipped, and running into the
    end of input while skipping sets [eofbit] and [failbit]. *)
Definition sentry_skipws (s : istream) : istream * bool :=
  if good s then
    match skip_ws (buffer s) with
    | [] => (mkIstream [] true true, false)
    | buf => (mkIstream buf false false, true)
    end
  else (mkIstream (buffer s) (eofbit s) true, false).

(** The sentry of an unformatted input function: no skipping. *)
Definition sentry_noskipws (s : istream) : istream * bool :=
  if good s then (s, true)
  else (mkIstream (buffer s) (eofbit s) true, false).

Fixpoint take_digits (buf : list ascii) : list ascii * list ascii :=
  match buf with
  | [] => ([], [])
  | c :: rest =>
    if isdigit c then let (ds, rest') := take_digits rest in (c :: ds, rest')
    else ([], buf)
  end.

Definition digit_value (c : ascii) : Z := Z.of_nat (nat_of_ascii c) - 48.

Definition digits_value (ds : list ascii) : Z :=
  fold_left (fun acc c => 10 * acc + digit_value c) ds 0.

Definition INT_MAX : Z := 2147483647.
Definition INT_MIN : Z := -2147483648.

(** An optional sign in front of the digits. *)
Definition take_sign (buf : list ascii) : bool * list ascii :=
  match buf with
  | c :: rest =>
    if Ascii.eqb c "-" then (true, rest)
    else if Ascii.eqb c "+" then (false, rest)
    else (false, buf)
  | [] => (false, [])
  end.

(** [stream >> x] for [int x]: the stream afterwards and the value of [x]
    afterwards ([x] itself when the sentry fails).  A field with no digit
    stores 0 and sets [failbit]; a value outside [int] stores the nearer
    bound and sets [failbit]; reading up to the end of input sets
    [eofbit]. *)
Definition extract_int (s : istream) (x : Z) : istream * Z :=
  let (s1, ok) := sentry_skipws s in
  if ok then
    let (negative, buf1) := take_sign (buffer s1) in
    let (ds, buf2) := take_digits buf1 in
    let at_end := match buf2 with [] => true | _ => false end in
    match ds with
    | [] => (mkIstream buf2 at_end true, 0)
    | _ =>
      let v := if negative then - digits_value ds else digits_value ds in
      if v <? INT_MIN then (mkIstream buf2 at_end true, INT_MIN)
      else if INT_MAX <? v then (mkIstream buf2 at_end true, INT_MAX)
      else (mkIstream buf2 at_end false, v)
    end
  else (s1, x).

(** The text up to the first newline, and what follows that newline
    ([None] when there is no newline). *)
Fixpoint split_line (buf : list ascii) : list ascii * option (list ascii) :=
  match buf with
  | [] => ([], None)
  | c :: rest =>
    if Ascii.eqb c newline then ([], Some rest)
    else let (line, rest') := split_line rest in (c :: line, rest')
  end.

(** [stream.ignore(numeric_limits<streamsize>::max(), '\n')]. *)
Definition ignore_line (s : istream) : istream :=
  let (s1, ok) := sentry_noskipws s in
  if ok then
    match snd (split_line (buffer s1)) with
    | Some rest => mkIstream rest false false
    | None => mkIstream [] true false
    end
  else s1.

(** [std::getline(stream, str)]: the stream and [str] afterwards.  The
    call fails when the stream is not good or when nothing at all, not
    even a newline, could be extracted. *)
Definition getline (s : istream) (str : list ascii) : istream * list ascii :=
  let (s1, ok) := sentry_noskipws s in
  if ok then
    match split_line (buffer s1) with
    | (line, Some rest) => (mkIstream rest false false, line)
    | (line, None) =>
      match line with
      | [] => (mkIstream [] true true, [])
      | _ :: _ => (mkIstream [] true false, line)
      end
    end
  else (s1, str).

(** ** The file adapters *)

Inductive error : Type :=
| CannotOpenInput
| CannotReadCount
| UnexpectedEndOfFile
| CannotOpenOutput
| CannotCreateTestFile.

Inductive result (A : Type) : Type :=
| Ok (a : A)
| Err (e : error).
Arguments Ok {A} a.
Arguments Err {A} e.

(** [while (ss >> number) current_list.push_back(number);] with a bound
    on the passes. *)
Fixpoint parse_numbers (fuel : nat) (ss : istream) (number : Z)
         (current_list : list Z) : option (list Z) :=
  match fuel with
  | O => None
  | S fuel' =>
    let (ss', number') := extract_int ss number in
    if failbit ss' then Some current_list
    else parse_numbers fuel' ss' number' (current_list ++ [number'])%list
  end.

(** One list line: every successful extraction consumes a character, so
    one pass more than the line has characters is enough (see
    [parse_numbers_total]). *)
Definition parse_line (line : list ascii) : list Z :=
  match parse_numbers (S (length line)) (open_stream line) 0 [] with
  | Some current_list => current_list
  | None => []
  end.

(** [for (int i = 0; i < n; ++i)] with [k] passes left. *)
Fixpoint read_lists (k : nat) (input_file : istream) (line : list ascii)
         (sorted_lists : list (list Z)) : result (list (list Z)) :=
  match k with
  | O => Ok sorted_lists
  | S k' =>
    let (input_file', line') := getline input_file line in
    if failbit input_file' then Err UnexpectedEndOfFile
    else read_lists k' input_file' line' (sorted_lists ++ [parse_line line'])%list
  end.

(** [ReadInputFile]; [file] is the text of the file at [file_path], or
    [None] when it cannot be opened.  [n] is uninitialised before the
    extraction and read only after it succeeded. *)
Definition ReadInputFile (file : option string) : result (list (list Z)) :=
  match file with
  | None => Err CannotOpenInput
  | Some content =>
    let (input_file, n) := extract_int (open_stream (list_ascii_of_string content)) 0 in
    if failbit input_file then
      if eofbit input_file then Ok [] else Err CannotReadCount
    else
      read_lists (Z.to_nat n) (ignore_line input_file) [] []
  end.

(** The decimal numeral of [x]: a minus sign for a negative number, then
    the digits, with no leading zero.  It is what [stream << x] writes
    for [int x] when the locale of the stream groups no digits. *)
Definition print_int (x : Z) : list ascii :=
  list_ascii_of_string (DecimalString.NilZero.string_of_int (Z.to_int x)).

(** What a stream takes from its locale when it writes a number:
    [numpunct<char>::thousands_sep()] and [numpunct<char>::grouping()],
    the sizes of the digit groups from the right, the last one
    repeating.  A stream is built with the global locale of that moment;
    [main] replaces the global locale by the one of the environment
    before it builds any stream. *)
Record locale : Type := mkLocale {
  thousands_sep : ascii;
  grouping : list nat
}.

(** The classic "C" locale groups no digits. *)
Definition classic_locale : locale := mkLocale "," [].

(** A locale that writes groups of three digits with commas between
    them. *)
Definition comma_locale : locale := mkLocale "," [3%nat].

Definition CHAR_MAX : nat := 127.

(** The separators of [num_put], on the digits taken from the right
    ([rdigits] starts with the last digit): a group is cut off while more
    digits are left than its size, and a size that is not positive or is
    [CHAR_MAX] ends the grouping.  [fuel] bounds the groups by the
    digits. *)
Fixpoint add_grouping (fuel : nat) (sep : ascii) (sizes : list nat)
         (rdigits : list ascii) : list ascii :=
  match fuel with
  | O => rdigits
  | S fuel' =>
    match sizes with
    | [] => rdigits
    | g :: later =>
      if ((g =? 0) || (CHAR_MAX <=? g) || (length rdigits <=? g))%nat
      then rdigits
      else (firstn g rdigits
            ++ sep :: add_grouping fuel' sep
                        (match later with [] => sizes | _ :: _ => later end)
                        (skipn g rdigits))%list
    end
  end.

Definition group_digits (loc : locale) (digits : list ascii) : list ascii :=
  rev (add_grouping (length digits) (thousands_sep loc) (grouping loc)
                    (rev digits)).

(** [output_file << x] for [int x] on a stream whose locale is [loc],
    default flags: the numeral of [x] with the separators of [loc]
    between its digits. *)
Definition print_int_in (loc : locale) (x : Z) : list ascii :=
  match print_int x with
  | [] => []
  | c :: digits =>
    if Ascii.eqb c "-" then c :: group_digits loc digits
    else group_digits loc (c :: digits)
  end.

(** [data.size() - 1] in [size_t]. *)
Definition size_minus_one (size : nat) : Z := (Z.of_nat size - 1) mod 2 ^ 64.

(** Body of the writing loop at index [i]. *)
Definition write_step (loc : locale) (data : list Z) (output_file : list ascii)
           (i : nat) : list ascii :=
  match nth_error data i with
  | Some x =>
    let out := (output_file ++ print_int_in loc x)%list in
    if Z.of_nat i <? size_minus_one (length data) then (out ++ [space])%list
    else out
  | None => output_file
  end.

(** [WriteOutputFile]; [loc] is the global locale when the stream is
    built and [writable] tells whether the destination opens.  The
    result is the text written. *)
Definition WriteOutputFile (loc : locale) (writable : bool) (data : list Z)
  : result string :=
  if writable then
    let body := fold_left (write_step loc data) (seq 0 (length data)) [] in
    Ok (string_of_list_ascii (body ++ [newline]))
  else Err CannotOpenOutput.

(** [MergeAndWrite]: read, merge, write. *)
Definition MergeAndWrite {Q : Type} {PQ : PriorityQueue Q} (loc : locale)
           (input : option string) (writable : bool) : result string :=
  match ReadInputFile input with
  | Err e => Err e
  | Ok sorted_lists => WriteOutputFile loc writable (MergeLists sorted_lists)
  end.

(** ** The test harness *)

(** [CreateInputFile]: the text of the file it makes, the count on a line
    and then each list on a line.  The count is written as its plain
    numeral: a stream that writes it with separators reads it back, in
    the same locale, as the same count. *)
Definition CreateInputFile (n : Z) (lists : list string) : string :=
  string_of_list_ascii
    (print_int n ++ [newline]
     ++ concat (map (fun l => list_ascii_of_string l ++ [newline]) lists))%list.

(** [if (actual_output.size() > 0 && actual_output.back() == '\n')
    actual_output.pop_back();] *)
Definition drop_final_newline (actual_output : string) : string :=
  match rev (list_ascii_of_string actual_output) with
  | c :: before =>
    if Ascii.eqb c newline then string_of_list_ascii (rev before)
    else actual_output
  | [] => actual_output
  end.

(** [ReadOutputFile]: the text of the file, or the empty string when the
    file cannot be opened. *)
Definition ReadOutputFile (file : option string) : string :=
  match file with
  | Some content => content
  | None => EmptyString
  end.

(** What a test runs in: the global locale, and which of its two files
    can be opened, for writing and for reading. *)
Record test_env : Type := mkTestEnv {
  env_locale : locale;
  input_creatable : bool;
  input_readable : bool;
  output_writable : bool;
  output_readable : bool
}.

(** What [RunTest] prints: success, failure, or the error it caught. *)
Inductive test_report : Type :=
| Passed
| Failed
| Errored (e : error).

(** [RunTest]: [CreateInputFile] throws when the input file cannot be
    made; [MergeAndWrite] then opens it for reading and the output file
    for writing; [ReadOutputFile] gives the empty string when the output
    file cannot be opened for reading.  Every exception is caught and
    reported. *)
Definition RunTest {Q : Type} {PQ : PriorityQueue Q} (env : test_env)
           (n : Z) (input_lists : list string) (expected_output : string)
  : test_report :=
  if input_creatable env then
    match MergeAndWrite (env_locale env)
                        (if input_readable env
                         then Some (CreateInputFile n input_lists) else None)
                        (output_writable env) with
    | Ok written =>
      let actual_output :=
          ReadOutputFile (if output_readable env then Some written else None) in
      if String.eqb (drop_final_newline actual_output) expected_output
      then Passed else Failed
    | Err e => Errored e
    end
  else Errored CannotCreateTestFile.

(** An environment in which every file opens. *)
Definition all_files_open (loc : locale) : test_env :=
  mkTestEnv loc true true true true.

(** ** Vocabulary of the adapters' properties *)

(** The items with one space between neighbours and none at either end. *)
Fixpoint join_spaces (items : list (list ascii)) : list ascii :=
  match items with
  | [] => []
  | s :: rest =>
    match rest with
    | [] => s
    | _ :: _ => (s ++ space :: join_spaces rest)%list
    end
  end.



(** The list line of [data]: its numerals with one space between
    neighbours. *)
Definition list_line (data : list Z) : string :=
  string_of_list_ascii (join_spaces (map print_int data)).

(** A value of type [int]. *)
Definition is_int (x : Z) : Prop := INT_MIN <= x <= INT_MAX.



(** One step of [digits_value]. *)
Definition digit_step (acc : Z) (c : ascii) : Z := 10 * acc + digit_value c.

(** Where a field of digits ends: at the end of the text or at a
    character that is no digit. *)
Definition ends_field (rest : list ascii) : Prop :=
  match rest with
  | [] => True
  | c :: _ => isdigit c = false
  end.

Definition is_error {A : Type} (r : result A) : Prop :=
  match r with Err _ => True | Ok _ => False end.

(** The number of lines in [buf]: one for each newline, and one more for
    characters after the last newline.  [pending_chars] tells whether
    the line being counted already has a character. *)
Fixpoint count_lines (pending_chars : bool) (buf : list ascii) : nat :=
  match buf with
  | [] => if pending_chars then 1 else 0
  | c :: rest =>
    if Ascii.eqb c newline then S (count_lines false rest)
    else count_lines true rest
  end.

(** The lines a stream still holds; none once it is no longer good. *)
Definition stream_lines (s : istream) : nat :=
  if good s then count_lines false (buffer s) else O.

(** The stream and the value of [n] after the extraction of the count. *)
Definition count_stream (content : string) : istream :=
  fst (extract_int (open_stream (list_ascii_of_string content)) 0).

Definition count_value (content : string) : Z :=
  snd (extract_int (open_stream (list_ascii_of_string content)) 0).

(** The list lines of a file: the lines after the one that holds the
    count. *)
Definition list_lines (content : string) : nat :=
  stream_lines (ignore_line (count_stream content)).

(** ** Vocabulary of the engine's properties *)

(** Non-decreasing: every element is at most its successor. *)
Definition non_decreasing (l : list Z) : Prop := Sorted Z.le l.

(** A candidate sits at its cursor: its value is the element of source
    [list_index] at position [element_index]. *)
Definition at_cursor (lists : list (list Z)) (c : Element) : Prop :=
  exists src, nth_error lists (list_index c) = Some src /\
              nth_error src (element_index c) = Some (value c).

(** The elements of a candidate's source from its cursor on: the part of
    the source that has not been emitted yet. *)
Definition unconsumed (lists : list (list Z)) (c : Element) : list Z :=
  match nth_error lists (list_index c) with
  | Some src => skipn (element_index c) src
  | None => []
  end.

(** Everything still to be emitted, given the candidates in the queue. *)
Definition pending (lists : list (list Z)) (cs : list Element) : list Z :=
  flat_map (unconsumed lists) cs.

(** The candidates the seeding loop builds for the sources [ls], the
    first of which has index [i]. *)
Fixpoint first_candidates (i : nat) (ls : list (list Z)) : list Element :=
  match ls with
  | [] => []
  | [] :: ls' => first_candidates (S i) ls'
  | (v :: _) :: ls' => mkElement v i 0 :: first_candidates (S i) ls'
  end.

(** The part of the loop invariant that holds whether or not the sources
    are sorted: no source has two candidates in the queue, each candidate
    sits at its cursor, and the output so far together with what is
    pending is the input. *)
Definition cursor_invariant {Q : Type} {PQ : PriorityQueue Q}
           (lists : list (list Z)) (q : Q) (result : list Z) : Prop :=
  NoDup (map list_index (contents q)) /\
  Forall (at_cursor lists) (contents q) /\
  Permutation (result ++ pending lists (contents q)) (concat lists).

(** The invariant of the drain loop: no source has two candidates in the
    queue; each candidate sits at its cursor in a source that still has
    that element, and no element of that source from the cursor on is
    smaller; the output so far together with what is pending is the
    input. *)
Definition heap_invariant {Q : Type} {PQ : PriorityQueue Q}
           (lists : list (list Z)) (q : Q) (result : list Z) : Prop :=
  NoDup (map list_index (contents q)) /\
  Forall (fun c => at_cursor lists c /\
                   Forall (fun y => value c <= y) (unconsumed lists c))
         (contents q) /\
  Permutation (result ++ pending lists (contents q)) (concat lists).

(** While the sources are sorted: the output is non-decreasing and at
    most everything pending. *)
Definition sorted_so_far {Q : Type} {PQ : PriorityQueue Q}
           (lists : list (list Z)) (q : Q) (result : list Z) : Prop :=
  cursor_invariant lists q result /\
  Sorted Z.le result /\
  Forall (fun x => Forall (fun y => x <= y) (pending lists (contents q))) result.

(** The candidate of the only source when its cursor is [i]. *)
Definition sole_candidate (s : list Z) (i : nat) : list Element :=
  match nth_error s i with
  | Some v => [mkElement v 0 i]
  | None => []
  end.

(** An evaluation of the drain loop from queue [q] and output [result]:
    the candidates it extracts, in order, and the output it returns. *)
Inductive drains {Q : Type} {PQ : PriorityQueue Q} (lists : list (list Z))
  : Q -> list Z -> list Element -> list Z -> Prop :=
| drains_leave : forall q result,
    pq_empty q = true -> drains lists q result [] result
| drains_pass : forall q result min_el q' result' order out,
    pq_empty q = false ->
    pq_top q = Some min_el ->
    drain_body lists q result = Some (q', result') ->
    drains lists q' result' order out ->
    drains lists q result (min_el :: order) out.

(** An evaluation of [MergeLists] on [lists]. *)
Definition evaluates {Q : Type} {PQ : PriorityQueue Q}
           (lists : list (list Z)) (order : list Element) (out : list Z) : Prop :=
  drains lists (seed lists) [] order out.

(** [s] is [l] with some elements left out: the elements of [s] occur in
    [l] in the same order. *)
Inductive subsequence : list Z -> list Z -> Prop :=
| subsequence_nil : forall l, subsequence [] l
| subsequence_skip : forall s x l, subsequence s l -> subsequence s (x :: l)
| subsequence_take : forall x s l, subsequence s l -> subsequence (x :: s) (x :: l).

(** The elements of each source emitted so far are in the output in the
    order of the source: up to its cursor for a source with a candidate
    in the queue, all of it for a source without one. *)
Definition order_kept {Q : Type} {PQ : PriorityQueue Q}
           (lists : list (list Z)) (q : Q) (result : list Z) : Prop :=
  (forall c src,
      In c (contents q) -> nth_error lists (list_index c) = Some src ->
      subsequence (firstn (element_index c) src) result) /\
  (forall i src,
      nth_error lists i = Some src ->
      ~ In i (map list_index (contents q)) ->
      subsequence src result).

Definition nonempty (l : list Z) : bool :=
  match l with [] => false | _ :: _ => true end.

(** The index source [i] has once the empty sources are dropped: the
    number of non-empty sources before it. *)
Definition rank (lists : list (list Z)) (i : nat) : nat :=
  length (filter nonempty (firstn i lists)).

(** A candidate of [lists] as a candidate of the non-empty sources. *)
Definition rename_source (lists : list (list Z)) (c : Element) : Element :=
  mkElement (value c) (rank lists (list_index c)) (element_index c).

(** ** The comparator *)

Lemma Element_gt_false (a b : Element) :
  Element_gt a b = false <-> value a <= value b.
Proof.
  unfold Element_gt. rewrite Z.gtb_ltb, Z.ltb_ge. reflexivity.
Qed.

Lemma Element_gt_true (a b : Element) :
  Element_gt a b = true <-> value b < value a.
Proof.
  unfold Element_gt. rewrite Z.gtb_ltb, Z.ltb_lt. reflexivity.
Qed.

(** ** The list-backed queues satisfy the interface *)

Lemma list_empty_spec (q : list Element) : list_empty q = true <-> q = [].
Proof. destruct q; simpl; split; congruence. Qed.

Lemma list_push_spec (e : Element) (q : list Element) :
  Permutation (list_push e q) (e :: q).
Proof.
  unfold list_push. symmetry. apply Permutation_cons_append.
Qed.

Lemma FirstMin_top_some (q : list Element) :
  q <> [] -> exists e, FirstMin.top q = Some e.
Proof.
  destruct q as [|e q']; [congruence|]. intros _. simpl.
  destruct (FirstMin.top q') as [m|]; [destruct (Element_gt e m)|]; eauto.
Qed.

Lemma FirstMin_top_nil (q : list Element) : FirstMin.top q = None -> q = [].
Proof.
  destruct q as [|e q']; [reflexivity|]. simpl.
  destruct (FirstMin.top q') as [m|]; [destruct (Element_gt e m)|]; discriminate.
Qed.

Lemma FirstMin_top_min (q : list Element) (e : Element) :
  FirstMin.top q = Some e -> Forall (fun x => Element_gt e x = false) q.
Proof.
  revert e. induction q as [|a q' IH]; intros e; simpl; [constructor|].
  destruct (FirstMin.top q') as [m|] eqn:Hm.
  - specialize (IH m eq_refl).
    destruct (Element_gt a m) eqn:Ham; intros [= <-].
    + constructor; [|exact IH].
      apply Element_gt_true in Ham. apply Element_gt_false. lia.
    + apply Element_gt_false in Ham.
      constructor; [apply Element_gt_false; lia|].
      eapply Forall_impl; [|exact IH]. cbv beta. intros x Hx.
      apply Element_gt_false in Hx. apply Element_gt_false. lia.
  - intros [= <-]. apply FirstMin_top_nil in Hm. subst q'.
    constructor; [apply Element_gt_false; lia|constructor].
Qed.

Lemma FirstMin_pop_spec (q : list Element) (e : Element) :
  FirstMin.top q = Some e -> Permutation q (e :: FirstMin.pop q).
Proof.
  revert e. induction q as [|a q' IH]; intros e; simpl; [discriminate|].
  destruct (FirstMin.top q') as [m|] eqn:Hm.
  - destruct (Element_gt a m); intros [= <-].
    + rewrite (IH m eq_refl) at 1. apply perm_swap.
    + reflexivity.
  - intros [= <-]. apply FirstMin_top_nil in Hm. subst q'. reflexivity.
Qed.

Lemma LastMin_top_some (q : list Element) :
  q <> [] -> exists e, LastMin.top q = Some e.
Proof.
  destruct q as [|e q']; [congruence|]. intros _. simpl.
  destruct (LastMin.top q') as [m|]; [destruct (Element_gt m e)|]; eauto.
Qed.

Lemma LastMin_top_nil (q : list Element) : LastMin.top q = None -> q = [].
Proof.
  destruct q as [|e q']; [reflexivity|]. simpl.
  destruct (LastMin.top q') as [m|]; [destruct (Element_gt m e)|]; discriminate.
Qed.

Lemma LastMin_top_min (q : list Element) (e : Element) :
  LastMin.top q = Some e -> Forall (fun x => Element_gt e x = false) q.
Proof.
  revert e. induction q as [|a q' IH]; intros e; simpl; [constructor|].
  destruct (LastMin.top q') as [m|] eqn:Hm.
  - specialize (IH m eq_refl).
    destruct (Element_gt m a) eqn:Hma; intros [= <-].
    + apply Element_gt_true in Hma.
      constructor; [apply Element_gt_false; lia|].
      eapply Forall_impl; [|exact IH]. cbv beta. intros x Hx.
      apply Element_gt_false in Hx. apply Element_gt_false. lia.
    + constructor; [exact Hma|exact IH].
  - intros [= <-]. apply LastMin_top_nil in Hm. subst q'.
    constructor; [apply Element_gt_false; lia|constructor].
Qed.

Lemma LastMin_pop_spec (q : list Element) (e : Element) :
  LastMin.top q = Some e -> Permutation q (e :: LastMin.pop q).
Proof.
  revert e. induction q as [|a q' IH]; intros e; simpl; [discriminate|].
  destruct (LastMin.top q') as [m|] eqn:Hm.
  - destruct (Element_gt m a); intros [= <-].
    + reflexivity.
    + rewrite (IH m eq_refl) at 1. apply perm_swap.
  - intros [= <-]. apply LastMin_top_nil in Hm. subst q'. reflexivity.
Qed.

#[export] Instance FirstMinQueue : PriorityQueue (list Element) := {|
  pq_new := [];
  pq_empty := list_empty;
  pq_top := FirstMin.top;
  pq_push := list_push;
  pq_pop := FirstMin.pop;
  contents := fun q => q;
  contents_new := eq_refl;
  empty_spec := list_empty_spec;
  push_spec := list_push_spec;
  top_some := FirstMin_top_some;
  top_min := FirstMin_top_min;
  pop_spec := FirstMin_pop_spec
|}.

(** The second queue has the same carrier; it is passed by name where it is
    meant. *)
Definition LastMinQueue : PriorityQueue (list Element) := {|
  pq_new := [];
  pq_empty := list_empty;
  pq_top := LastMin.top;
  pq_push := list_push;
  pq_pop := LastMin.pop;
  contents := fun q => q;
  contents_new := eq_refl;
  empty_spec := list_empty_spec;
  push_spec := list_push_spec;
  top_some := LastMin_top_some;
  top_min := LastMin_top_min;
  pop_spec := LastMin_pop_spec
|}.

(** ** The list-backed queues read [value] alone *)

Lemma Element_gt_relabel (f : Element -> Element) (a b : Element) :
  (forall e, value (f e) = value e) ->
  Element_gt (f a) (f b) = Element_gt a b.
Proof. intros Hf. unfold Element_gt. rewrite !Hf. reflexivity. Qed.

Lemma FirstMin_top_map (f : Element -> Element) (q : list Element) :
  (forall e, value (f e) = value e) ->
  FirstMin.top (map f q) = option_map f (FirstMin.top q).
Proof.
  intros Hf. induction q as [|a q IH]; simpl; [reflexivity|].
  rewrite IH. destruct (FirstMin.top q) as [m|]; simpl; [|reflexivity].
  rewrite (Element_gt_relabel f a m Hf).
  destruct (Element_gt a m); reflexivity.
Qed.

Lemma FirstMin_pop_map (f : Element -> Element) (q : list Element) :
  (forall e, value (f e) = value e) ->
  map f (FirstMin.pop q) = FirstMin.pop (map f q).
Proof.
  intros Hf. induction q as [|a q IH]; simpl; [reflexivity|].
  rewrite (FirstMin_top_map f q Hf).
  destruct (FirstMin.top q) as [m|]; simpl; [|reflexivity].
  rewrite (Element_gt_relabel f a m Hf).
  destruct (Element_gt a m); simpl; [rewrite IH|]; reflexivity.
Qed.

Lemma LastMin_top_map (f : Element -> Element) (q : list Element) :
  (forall e, value (f e) = value e) ->
  LastMin.top (map f q) = option_map f (LastMin.top q).
Proof.
  intros Hf. induction q as [|a q IH]; simpl; [reflexivity|].
  rewrite IH. destruct (LastMin.top q) as [m|]; simpl; [|reflexivity].
  rewrite (Element_gt_relabel f m a Hf).
  destruct (Element_gt m a); reflexivity.
Qed.

Lemma LastMin_pop_map (f : Element -> Element) (q : list Element) :
  (forall e, value (f e) = value e) ->
  map f (LastMin.pop q) = LastMin.pop (map f q).
Proof.
  intros Hf. induction q as [|a q IH]; simpl; [reflexivity|].
  rewrite (LastMin_top_map f q Hf).
  destruct (LastMin.top q) as [m|]; simpl; [|reflexivity].
  rewrite (Element_gt_relabel f m a Hf).
  destruct (Element_gt m a); simpl; [|rewrite IH]; reflexivity.
Qed.

Lemma list_empty_map (f : Element -> Element) (q : list Element) :
  list_empty (map f q) = list_empty q.
Proof. destruct q; reflexivity. Qed.

Lemma list_push_map (f : Element -> Element) (e : Element) (q : list Element) :
  (forall e, value (f e) = value e) ->
  map f (list_push e q) = list_push (f e) (map f q).
Proof. intros _. unfold list_push. rewrite map_app. reflexivity. Qed.

#[export] Instance FirstMinOblivious : @ValueOblivious (list Element) FirstMinQueue := {|
  pq_relabel := fun f q => map f q;
  relabel_new := fun f => eq_refl;
  relabel_empty := list_empty_map;
  relabel_top := FirstMin_top_map;
  relabel_push := list_push_map;
  relabel_pop := FirstMin_pop_map
|}.

Definition LastMinOblivious : @ValueOblivious (list Element) LastMinQueue :=
  @Build_ValueOblivious (list Element) LastMinQueue
    (fun f q => map f q) (fun f => eq_refl)
    list_empty_map LastMin_top_map list_push_map LastMin_pop_map.

(** ** Lists: cursors, sortedness, permutations *)

Lemma skipn_nth_error {A : Type} (l : list A) (i : nat) (x : A) :
  nth_error l i = Some x -> skipn i l = x :: skipn (S i) l.
Proof.
  revert i. induction l as [|a l IH]; intros [|i]; simpl; try discriminate.
  - intros [= ->]. reflexivity.
  - intros H. rewrite (IH i H). reflexivity.
Qed.

Lemma Sorted_skipn (l : list Z) (i : nat) :
  Sorted Z.le l -> Sorted Z.le (skipn i l).
Proof.
  revert l. induction i as [|i IH]; intros l Hl; [exact Hl|].
  destruct l as [|a l]; simpl; [constructor|].
  apply IH. inversion Hl; assumption.
Qed.

Lemma Sorted_head_least (a : Z) (l : list Z) :
  Sorted Z.le (a :: l) -> Forall (fun y => a <= y) (a :: l).
Proof.
  intros H. apply Sorted_StronglySorted in H; [|exact Z.le_trans].
  inversion H; subst. constructor; [lia|assumption].
Qed.

Lemma Sorted_snoc (l : list Z) (x : Z) :
  Sorted Z.le l -> Forall (fun y => y <= x) l -> Sorted Z.le (l ++ [x]).
Proof.
  induction l as [|a l IH]; simpl; intros Hs Hx.
  - repeat constructor.
  - inversion Hs as [|? ? Hs' Hhd]; subst. inversion Hx as [|? ? Hax Hx']; subst.
    constructor; [apply IH; assumption|].
    destruct l as [|b l]; simpl; constructor.
    + exact Hax.
    + inversion Hhd; assumption.
Qed.

(** Two non-decreasing lists with the same elements are the same list. *)
Lemma Sorted_Permutation_eq (l1 l2 : list Z) :
  Sorted Z.le l1 -> Sorted Z.le l2 -> Permutation l1 l2 -> l1 = l2.
Proof.
  revert l2. induction l1 as [|a l1 IH]; intros l2 H1 H2 HP.
  - apply Permutation_nil in HP. congruence.
  - destruct l2 as [|b l2].
    + apply Permutation_sym, Permutation_nil in HP. discriminate.
    + assert (Ha : Forall (fun y => a <= y) (a :: l1)) by (apply Sorted_head_least; exact H1).
      assert (Hb : Forall (fun y => b <= y) (b :: l2)) by (apply Sorted_head_least; exact H2).
      rewrite Forall_forall in Ha, Hb.
      assert (a = b).
      { assert (a <= b) by (apply Ha; eapply Permutation_in; [symmetry; exact HP|left; reflexivity]).
        assert (b <= a) by (apply Hb; eapply Permutation_in; [exact HP|left; reflexivity]).
        lia. }
      subst b. f_equal. apply IH.
      * inversion H1; assumption.
      * inversion H2; assumption.
      * eapply Permutation_cons_inv; exact HP.
Qed.

(** ** The engine *)

Section EngineFacts.
Context {Q : Type} {PQ : PriorityQueue Q}.
Implicit Types (lists : list (list Z)) (q : Q) (c : Element).

Lemma pending_Permutation lists (cs cs' : list Element) :
  Permutation cs cs' -> Permutation (pending lists cs) (pending lists cs').
Proof.
  unfold pending. intros H. apply Permutation_flat_map. exact H.
Qed.

Lemma pending_cons lists c (cs : list Element) :
  pending lists (c :: cs) = (unconsumed lists c ++ pending lists cs)%list.
Proof. reflexivity. Qed.

Lemma top_in q c : pq_top q = Some c -> In c (contents q).
Proof.
  intros H. eapply Permutation_in; [symmetry; apply (pop_spec q c H)|].
  left; reflexivity.
Qed.

Lemma empty_false_top q :
  pq_empty q = false -> exists c, pq_top q = Some c.
Proof.
  intros H. apply top_some. intros Hnil.
  apply empty_spec in Hnil. congruence.
Qed.

(** *** Seeding *)

Lemma seed_step_nth lists q (i : nat) (l : list Z) :
  nth_error lists i = Some l ->
  seed_step lists q i =
  match l with
  | [] => q
  | v :: _ => pq_push (mkElement v i 0) q
  end.
Proof. intros H. unfold seed_step. rewrite H. reflexivity. Qed.

Lemma seed_from_contents lists (ls pre : list (list Z)) q :
  lists = (pre ++ ls)%list ->
  Permutation
    (contents (fold_left (seed_step lists) (seq (length pre) (length ls)) q))
    (first_candidates (length pre) ls ++ contents q).
Proof.
  revert pre q. induction ls as [|l ls IH]; intros pre q Hl; simpl.
  - reflexivity.
  - assert (Hnth : nth_error lists (length pre) = Some l).
    { subst lists. rewrite nth_error_app2, Nat.sub_diag by lia. reflexivity. }
    assert (Hl' : lists = ((pre ++ [l]) ++ ls)%list).
    { subst lists. rewrite <- app_assoc. reflexivity. }
    specialize (IH (pre ++ [l])%list).
    rewrite length_app, Nat.add_1_r in IH.
    unfold seed_step at 2. rewrite Hnth.
    destruct l as [|v l0].
    + apply IH, Hl'.
    + rewrite (IH _ Hl'). simpl.
      rewrite push_spec. symmetry. apply Permutation_middle.
Qed.

Lemma seed_contents lists :
  Permutation (contents (seed lists)) (first_candidates 0 lists).
Proof.
  unfold seed.
  rewrite (seed_from_contents lists lists [] pq_new eq_refl).
  rewrite contents_new, app_nil_r. reflexivity.
Qed.

Lemma first_candidates_index (i : nat) (ls : list (list Z)) c :
  In c (first_candidates i ls) ->
  (i <= list_index c)%nat /\ element_index c = O /\
  exists l, nth_error ls (list_index c - i) = Some (value c :: l).
Proof.
  revert i. induction ls as [|l ls IH]; intros i; simpl; [tauto|].
  assert (Hrec : In c (first_candidates (S i) ls) ->
                 (i <= list_index c)%nat /\ element_index c = O /\
                 exists l0, nth_error (l :: ls) (list_index c - i) = Some (value c :: l0)).
  { intros Hin. destruct (IH _ Hin) as (Hle & He & l0 & Hl0).
    split; [lia|]. split; [exact He|]. exists l0.
    replace (list_index c - i)%nat with (S (list_index c - S i)) by lia.
    exact Hl0. }
  destruct l as [|v l0]; [exact Hrec|].
  intros [<-|Hin]; [|exact (Hrec Hin)].
  simpl. split; [lia|]. split; [reflexivity|].
  exists l0. rewrite Nat.sub_diag. reflexivity.
Qed.

Lemma first_candidates_NoDup (i : nat) (ls : list (list Z)) :
  NoDup (map list_index (first_candidates i ls)).
Proof.
  revert i. induction ls as [|l ls IH]; intros i; simpl; [constructor|].
  destruct l as [|v l0]; [apply IH|].
  simpl. constructor; [|apply IH].
  rewrite in_map_iff. intros (c & Hc & Hin).
  apply first_candidates_index in Hin. lia.
Qed.

Lemma first_candidates_at_cursor lists c :
  In c (first_candidates 0 lists) -> at_cursor lists c.
Proof.
  intros Hin. apply first_candidates_index in Hin.
  destruct Hin as (_ & He & l & Hl). rewrite Nat.sub_0_r in Hl.
  exists (value c :: l). split; [exact Hl|]. rewrite He. reflexivity.
Qed.

Lemma first_candidates_pending lists (ls pre : list (list Z)) :
  lists = (pre ++ ls)%list ->
  pending lists (first_candidates (length pre) ls) = concat ls.
Proof.
  revert pre. induction ls as [|l ls IH]; intros pre Hl; [reflexivity|].
  assert (Hnth : nth_error lists (length pre) = Some l).
  { subst lists. rewrite nth_error_app2, Nat.sub_diag by lia. reflexivity. }
  assert (Hl' : lists = ((pre ++ [l]) ++ ls)%list).
  { subst lists. rewrite <- app_assoc. reflexivity. }
  specialize (IH (pre ++ [l])%list Hl').
  rewrite length_app, Nat.add_1_r in IH.
  destruct l as [|v l0]; [exact IH|].
  cbn [first_candidates concat]. rewrite pending_cons, IH.
  unfold unconsumed. cbn [list_index element_index]. rewrite Hnth. reflexivity.
Qed.

Lemma seed_invariant lists : cursor_invariant lists (seed lists) [].
Proof.
  pose proof (seed_contents lists) as HP.
  split; [|split].
  - eapply Permutation_NoDup; [apply Permutation_map; symmetry; exact HP|].
    apply first_candidates_NoDup.
  - eapply Permutation_Forall; [symmetry; exact HP|].
    apply Forall_forall. intros c. apply first_candidates_at_cursor.
  - cbn [app]. rewrite (pending_Permutation lists _ _ HP).
    rewrite (first_candidates_pending lists lists [] eq_refl
             : pending lists (first_candidates 0 lists) = concat lists).
    reflexivity.
Qed.

(** *** One pass of the drain loop *)

Lemma unconsumed_at_cursor lists c src :
  nth_error lists (list_index c) = Some src ->
  nth_error src (element_index c) = Some (value c) ->
  unconsumed lists c = value c :: skipn (S (element_index c)) src.
Proof.
  intros Hsrc Hval. unfold unconsumed. rewrite Hsrc.
  apply skipn_nth_error, Hval.
Qed.

Lemma at_cursor_least lists c :
  Forall (Sorted Z.le) lists -> at_cursor lists c ->
  Forall (fun y => value c <= y) (unconsumed lists c).
Proof.
  intros Hs (src & Hsrc & Hval).
  assert (Hsorted : Sorted Z.le src).
  { rewrite Forall_forall in Hs. apply Hs. eapply nth_error_In, Hsrc. }
  pose proof (Sorted_skipn src (element_index c) Hsorted) as Hsk.
  rewrite (unconsumed_at_cursor lists c src Hsrc Hval).
  rewrite (skipn_nth_error src _ _ Hval) in Hsk.
  apply Sorted_head_least, Hsk.
Qed.

Lemma drain_body_step lists q result :
  cursor_invariant lists q result -> pq_empty q = false ->
  exists c q',
    pq_top q = Some c /\
    drain_body lists q result = Some (q', (result ++ [value c])%list) /\
    Permutation (pending lists (contents q))
                (value c :: pending lists (contents q')) /\
    cursor_invariant lists q' (result ++ [value c]).
Proof.
  intros (Hnd & Hat & Hperm) Hne.
  destruct (empty_false_top q Hne) as (c & Htop).
  pose proof (pop_spec q c Htop) as Hpop.
  assert (Hc : at_cursor lists c).
  { rewrite Forall_forall in Hat. apply Hat, top_in, Htop. }
  destruct Hc as (src & Hsrc & Hval).
  assert (Hrest : Forall (at_cursor lists) (contents (pq_pop q))).
  { eapply Permutation_Forall in Hat; [|exact Hpop]. inversion Hat; assumption. }
  assert (Hnd' : NoDup (list_index c :: map list_index (contents (pq_pop q)))).
  { eapply Permutation_NoDup;
      [exact (Permutation_map list_index Hpop)|exact Hnd]. }
  pose proof (unconsumed_at_cursor lists c src Hsrc Hval) as Hunc.
  assert (Hpend : Permutation (pending lists (contents q))
            (value c :: skipn (S (element_index c)) src
                        ++ pending lists (contents (pq_pop q)))).
  { rewrite (pending_Permutation lists _ _ Hpop), pending_cons, Hunc.
    reflexivity. }
  unfold drain_body. rewrite Htop, Hsrc, Nat.add_1_r.
  destruct (S (element_index c) <? length src)%nat eqn:Hlt.
  - apply Nat.ltb_lt in Hlt.
    destruct (nth_error src (S (element_index c))) as [v|] eqn:Hv;
      [|apply nth_error_None in Hv; lia].
    set (c' := mkElement v (list_index c) (S (element_index c))).
    pose proof (push_spec c' (pq_pop q)) as Hpush.
    assert (Hunc' : unconsumed lists c' = skipn (S (element_index c)) src).
    { unfold unconsumed, c'. cbn [list_index element_index].
      rewrite Hsrc. reflexivity. }
    assert (Hpend' : Permutation (pending lists (contents q))
              (value c :: pending lists (contents (pq_push c' (pq_pop q))))).
    { rewrite Hpend, (pending_Permutation lists _ _ Hpush), pending_cons, Hunc'.
      reflexivity. }
    exists c, (pq_push c' (pq_pop q)).
    split; [reflexivity|]. split; [reflexivity|]. split; [exact Hpend'|].
    split; [|split].
    + eapply Permutation_NoDup;
        [symmetry; exact (Permutation_map list_index Hpush)|exact Hnd'].
    + eapply Permutation_Forall; [symmetry; exact Hpush|].
      constructor; [|exact Hrest].
      exists src. split; [exact Hsrc|exact Hv].
    + rewrite <- app_assoc. cbn [app]. rewrite <- Hpend'. exact Hperm.
  - apply Nat.ltb_ge in Hlt.
    rewrite (skipn_all2 src) in Hpend by lia. cbn [app] in Hpend.
    exists c, (pq_pop q).
    split; [reflexivity|]. split; [reflexivity|]. split; [exact Hpend|].
    split; [|split].
    + inversion Hnd'; assumption.
    + exact Hrest.
    + rewrite <- app_assoc. cbn [app]. rewrite <- Hpend. exact Hperm.
Qed.

Lemma drain_body_invariant lists q result q' result' :
  cursor_invariant lists q result -> pq_empty q = false ->
  drain_body lists q result = Some (q', result') ->
  cursor_invariant lists q' result'.
Proof.
  intros Hinv Hne Hbody.
  destruct (drain_body_step lists q result Hinv Hne) as (c & q1 & _ & Hb & _ & H1).
  rewrite Hb in Hbody. injection Hbody as <- <-. exact H1.
Qed.

(** *** The loop *)

(** A property that holds on entry and is kept by every pass holds, with
    an empty queue, for what the loop returns. *)
Lemma drain_rule (P : Q -> list Z -> Prop) lists :
  (forall q result q' result',
      P q result -> pq_empty q = false ->
      drain_body lists q result = Some (q', result') -> P q' result') ->
  forall fuel q result out,
    P q result -> drain fuel lists q result = Done out ->
    exists q', pq_empty q' = true /\ P q' out.
Proof.
  intros Hstep. induction fuel as [|fuel IH]; intros q result out HP; simpl;
    destruct (pq_empty q) eqn:Hq.
  - intros [= <-]. eauto.
  - discriminate.
  - intros [= <-]. eauto.
  - destruct (drain_body lists q result) as [[q' result']|] eqn:Hb; [|discriminate].
    apply IH. eapply Hstep; eassumption.
Qed.

Lemma pending_nonempty lists q :
  Forall (at_cursor lists) (contents q) -> pq_empty q = false ->
  (0 < length (pending lists (contents q)))%nat.
Proof.
  intros Hat Hne. destruct (contents q) as [|c cs] eqn:Hc.
  - apply empty_spec in Hc. congruence.
  - inversion Hat as [|? ? (src & Hsrc & Hval) _]; subst.
    rewrite pending_cons, (unconsumed_at_cursor lists c src Hsrc Hval).
    simpl. lia.
Qed.

(** With one unit of fuel per pending element the loop runs to its end. *)
Lemma drain_total lists :
  forall fuel q result,
    cursor_invariant lists q result ->
    (length (pending lists (contents q)) <= fuel)%nat ->
    exists out, drain fuel lists q result = Done out.
Proof.
  induction fuel as [|fuel IH]; intros q result Hinv Hfuel; simpl;
    destruct (pq_empty q) eqn:Hq; eauto.
  - destruct Hinv as (_ & Hat & _).
    pose proof (pending_nonempty lists q Hat Hq). lia.
  - destruct (drain_body_step lists q result Hinv Hq)
      as (c & q' & _ & Hb & Hpend & Hinv').
    rewrite Hb. apply IH; [exact Hinv'|].
    apply Permutation_length in Hpend. simpl in Hpend. lia.
Qed.

Lemma drain_defined lists :
  forall fuel q result,
    cursor_invariant lists q result ->
    drain fuel lists q result <> Undefined.
Proof.
  induction fuel as [|fuel IH]; intros q result Hinv; simpl;
    destruct (pq_empty q) eqn:Hq; try discriminate.
  destruct (drain_body_step lists q result Hinv Hq)
    as (c & q' & _ & Hb & _ & Hinv').
  rewrite Hb. apply IH, Hinv'.
Qed.

(** More fuel does not change a finished run. *)
Lemma drain_fuel_mono lists :
  forall fuel fuel' q result out,
    (fuel <= fuel')%nat ->
    drain fuel lists q result = Done out ->
    drain fuel' lists q result = Done out.
Proof.
  induction fuel as [|fuel IH]; intros fuel' q result out Hle.
  - simpl. destruct (pq_empty q) eqn:Hq; [|discriminate].
    intros H. destruct fuel'; simpl; rewrite Hq; exact H.
  - destruct fuel' as [|fuel']; [lia|]. simpl.
    destruct (pq_empty q); [tauto|].
    destruct (drain_body lists q result) as [[q' result']|]; [|discriminate].
    apply IH. lia.
Qed.

Lemma drain_Permutation lists fuel q result out :
  cursor_invariant lists q result ->
  drain fuel lists q result = Done out ->
  Permutation out (concat lists).
Proof.
  intros Hinv Hrun.
  destruct (drain_rule (cursor_invariant lists) lists
              (drain_body_invariant lists) fuel q result out Hinv Hrun)
    as (q' & Hq' & _ & _ & Hperm).
  apply empty_spec in Hq'. rewrite Hq' in Hperm.
  simpl in Hperm. rewrite app_nil_r in Hperm. exact Hperm.
Qed.

(** *** Sorted sources *)

(** The extracted candidate is at most everything that is pending. *)
Lemma top_least lists q result c :
  Forall (Sorted Z.le) lists -> cursor_invariant lists q result ->
  pq_top q = Some c ->
  Forall (fun y => value c <= y) (pending lists (contents q)).
Proof.
  intros Hs (_ & Hat & _) Htop.
  pose proof (top_min q c Htop) as Hmin.
  rewrite Forall_forall in Hat, Hmin. apply Forall_forall. intros y Hy.
  unfold pending in Hy. apply in_flat_map in Hy. destruct Hy as (c0 & Hc0 & Hy).
  pose proof (at_cursor_least lists c0 Hs (Hat c0 Hc0)) as Hleast.
  rewrite Forall_forall in Hleast.
  specialize (Hleast y Hy). specialize (Hmin c0 Hc0).
  apply Element_gt_false in Hmin. lia.
Qed.

Lemma drain_body_sorted lists :
  Forall (Sorted Z.le) lists ->
  forall q result q' result',
    sorted_so_far lists q result -> pq_empty q = false ->
    drain_body lists q result = Some (q', result') ->
    sorted_so_far lists q' result'.
Proof.
  intros Hs q result q' result' (Hinv & Hsorted & Hcross) Hne Hbody.
  destruct (drain_body_step lists q result Hinv Hne)
    as (c & q1 & Htop & Hb & Hpend & Hinv').
  rewrite Hb in Hbody. injection Hbody as <- <-.
  pose proof (top_least lists q result c Hs Hinv Htop) as Hleast.
  assert (Hsub : forall y, In y (pending lists (contents q1)) ->
                           In y (pending lists (contents q))).
  { intros y Hy. eapply Permutation_in; [symmetry; exact Hpend|].
    right. exact Hy. }
  assert (Hcin : In (value c) (pending lists (contents q))).
  { eapply Permutation_in; [symmetry; exact Hpend|]. left. reflexivity. }
  split; [exact Hinv'|]. split.
  - apply Sorted_snoc; [exact Hsorted|].
    eapply Forall_impl; [|exact Hcross]. cbv beta. intros x Hx.
    rewrite Forall_forall in Hx. apply Hx, Hcin.
  - apply Forall_app. split.
    + eapply Forall_impl; [|exact Hcross]. cbv beta. intros x Hx.
      rewrite Forall_forall in Hx. apply Forall_forall. intros y Hy.
      apply Hx, Hsub, Hy.
    + constructor; [|constructor].
      rewrite Forall_forall in Hleast. apply Forall_forall. intros y Hy.
      apply Hleast, Hsub, Hy.
Qed.

Lemma drain_Sorted lists fuel q result out :
  Forall (Sorted Z.le) lists ->
  sorted_so_far lists q result ->
  drain fuel lists q result = Done out ->
  Sorted Z.le out.
Proof.
  intros Hs Hinv Hrun.
  destruct (drain_rule (sorted_so_far lists) lists
              (drain_body_sorted lists Hs) fuel q result out Hinv Hrun)
    as (q' & _ & _ & Hsorted & _).
  exact Hsorted.
Qed.

(** *** [MergeLists] *)

Lemma MergeLists_run_total lists :
  MergeLists_run (total_length lists) lists = Done (MergeLists lists).
Proof.
  unfold MergeLists.
  destruct (drain_total lists (total_length lists) (seed lists) []
              (seed_invariant lists)) as (out & Hout).
  - destruct (seed_invariant lists) as (_ & _ & Hperm).
    simpl in Hperm. apply Permutation_length in Hperm.
    unfold total_length. lia.
  - unfold MergeLists_run. rewrite Hout. reflexivity.
Qed.

Lemma MergeLists_run_Done lists fuel out :
  MergeLists_run fuel lists = Done out -> out = MergeLists lists.
Proof.
  intros Hrun. pose proof (MergeLists_run_total lists) as Htot.
  unfold MergeLists_run in *.
  destruct (Nat.le_ge_cases fuel (total_length lists)) as [Hle|Hle].
  - apply (drain_fuel_mono lists _ _ _ _ _ Hle) in Hrun. congruence.
  - apply (drain_fuel_mono lists _ _ _ _ _ Hle) in Htot. congruence.
Qed.

Lemma MergeLists_Permutation lists :
  Permutation (MergeLists lists) (concat lists).
Proof.
  eapply drain_Permutation; [apply seed_invariant|].
  apply MergeLists_run_total.
Qed.

Lemma MergeLists_Sorted lists :
  Forall (Sorted Z.le) lists -> Sorted Z.le (MergeLists lists).
Proof.
  intros Hs. eapply drain_Sorted; [exact Hs| |apply MergeLists_run_total].
  split; [apply seed_invariant|]. split; constructor.
Qed.

(** *** A single source *)

Lemma firstn_snoc_nth_error {A : Type} (l : list A) (i : nat) (x : A) :
  nth_error l i = Some x -> firstn (S i) l = (firstn i l ++ [x])%list.
Proof.
  revert i. induction l as [|a l IH]; intros [|i]; simpl; try discriminate.
  - intros [= ->]. reflexivity.
  - intros H. f_equal. apply (IH i H).
Qed.

Lemma drain_single (s : list Z) :
  forall fuel i q,
    (length s - i <= fuel)%nat ->
    Permutation (contents q) (sole_candidate s i) ->
    drain fuel [s] q (firstn i s) = Done s.
Proof.
  induction fuel as [|fuel IH]; intros i q Hfuel Hq;
    unfold sole_candidate in Hq;
    destruct (nth_error s i) as [v|] eqn:Hv.
  - assert (i < length s)%nat by (apply nth_error_Some; congruence). lia.
  - apply Permutation_sym, Permutation_nil, empty_spec in Hq.
    apply nth_error_None in Hv.
    simpl. rewrite Hq, firstn_all2 by lia. reflexivity.
  - apply Permutation_sym, Permutation_length_1_inv in Hq.
    assert (Hne : pq_empty q = false).
    { destruct (pq_empty q) eqn:He; [|reflexivity].
      apply empty_spec in He. congruence. }
    destruct (empty_false_top q Hne) as (c & Htop).
    pose proof (top_in q c Htop) as Hin. rewrite Hq in Hin.
    destruct Hin as [<-|[]].
    pose proof (pop_spec q _ Htop) as Hpop. rewrite Hq in Hpop.
    apply Permutation_cons_inv, Permutation_nil in Hpop.
    simpl. rewrite Hne. unfold drain_body. rewrite Htop.
    cbn [list_index element_index value nth_error]. rewrite Nat.add_1_r.
    rewrite <- (firstn_snoc_nth_error s i v Hv).
    destruct (S i <? length s)%nat eqn:Hlt.
    + apply Nat.ltb_lt in Hlt.
      destruct (nth_error s (S i)) as [v'|] eqn:Hv';
        [|apply nth_error_None in Hv'; lia].
      apply IH; [lia|].
      unfold sole_candidate. rewrite Hv', push_spec, Hpop. reflexivity.
    + apply Nat.ltb_ge in Hlt.
      apply IH; [lia|].
      unfold sole_candidate.
      replace (nth_error s (S i)) with (@None Z)
        by (symmetry; apply nth_error_None; lia).
      rewrite Hpop. reflexivity.
  - apply Permutation_sym, Permutation_nil, empty_spec in Hq.
    apply nth_error_None in Hv.
    simpl. rewrite Hq, firstn_all2 by lia. reflexivity.
Qed.

Lemma MergeLists_single (s : list Z) : MergeLists [s] = s.
Proof.
  symmetry. apply MergeLists_run_Done with (fuel := length s).
  unfold MergeLists_run.
  apply (drain_single s (length s) 0 (seed [s])); [lia|].
  rewrite seed_contents. unfold sole_candidate.
  destruct s; reflexivity.
Qed.

(** *** The state before each pass *)

Lemma drain_state_invariant lists :
  forall n q result,
    drain_state n lists = Some (q, result) ->
    cursor_invariant lists q result.
Proof.
  induction n as [|n IH]; intros q result; simpl.
  - intros [= <- <-]. apply seed_invariant.
  - destruct (drain_state n lists) as [[q0 r0]|]; [|discriminate].
    destruct (pq_empty q0) eqn:Hq0; [discriminate|].
    intros Hb. eapply drain_body_invariant; eauto.
Qed.

Lemma heap_invariant_of_cursor lists q result :
  Forall (Sorted Z.le) lists ->
  cursor_invariant lists q result -> heap_invariant lists q result.
Proof.
  intros Hs (Hnd & Hat & Hperm). split; [exact Hnd|]. split; [|exact Hperm].
  eapply Forall_impl; [|exact Hat]. cbv beta. intros c Hc.
  split; [exact Hc|]. apply at_cursor_least; assumption.
Qed.

Lemma cursor_of_heap_invariant lists q result :
  heap_invariant lists q result -> cursor_invariant lists q result.
Proof.
  intros (Hnd & Hat & Hperm). split; [exact Hnd|]. split; [|exact Hperm].
  eapply Forall_impl; [|exact Hat]. cbv beta. tauto.
Qed.

(** The loop leaves from one of the states [drain_state] lists. *)
Lemma drain_leaves_from_state lists :
  forall fuel n q result out,
    drain_state n lists = Some (q, result) ->
    drain fuel lists q result = Done out ->
    exists m q', drain_state m lists = Some (q', out) /\ pq_empty q' = true.
Proof.
  induction fuel as [|fuel IH]; intros n q result out Hn; simpl;
    destruct (pq_empty q) eqn:Hq; try discriminate.
  - intros [= <-]. eauto.
  - intros [= <-]. eauto.
  - destruct (drain_body lists q result) as [[q1 r1]|] eqn:Hb; [|discriminate].
    apply (IH (S n)). simpl. rewrite Hn, Hq. exact Hb.
Qed.

(** A pass appends the value of the candidate on top, and the queue it
    leaves does not depend on the output so far. *)
Lemma drain_body_top lists q result q' result' :
  drain_body lists q result = Some (q', result') ->
  exists c,
    pq_top q = Some c /\ result' = (result ++ [value c])%list /\
    forall result0,
      drain_body lists q result0 = Some (q', (result0 ++ [value c])%list).
Proof.
  unfold drain_body. destruct (pq_top q) as [c|]; [|discriminate].
  destruct (nth_error lists (list_index c)) as [src|]; [|discriminate].
  destruct (element_index c + 1 <? length src)%nat.
  - destruct (nth_error src (element_index c + 1)); [|discriminate].
    intros [= <- <-]. exists c. repeat split.
  - intros [= <- <-]. exists c. repeat split.
Qed.

(** The output is the values of the candidates in extraction order. *)
Lemma drain_extraction_order lists :
  forall fuel q result out,
    drain fuel lists q result = Done out ->
    out = (result ++ map value (extraction_order fuel lists q))%list.
Proof.
  induction fuel as [|fuel IH]; intros q result out; simpl;
    destruct (pq_empty q) eqn:Hq; try discriminate.
  - intros [= <-]. rewrite app_nil_r. reflexivity.
  - intros [= <-]. rewrite app_nil_r. reflexivity.
  - destruct (drain_body lists q result) as [[q' result']|] eqn:Hb;
      [|discriminate].
    destruct (drain_body_top lists q result q' result' Hb)
      as (c & Htop & -> & Hany).
    rewrite Htop, (Hany []). intros Hrun.
    rewrite (IH _ _ _ Hrun), <- app_assoc. reflexivity.
Qed.

(** *** Evaluations *)

Lemma drains_functional lists :
  forall q result order1 out1,
    drains lists q result order1 out1 ->
    forall order2 out2,
      drains lists q result order2 out2 ->
      order1 = order2 /\ out1 = out2.
Proof.
  induction 1 as [q result He|q result c q' result' order out He Ht Hb _ IH];
    intros order2 out2 H2.
  - inversion H2; subst; [split; reflexivity|congruence].
  - inversion H2 as [|? ? c2 q2 r2 o2 ? He2 Ht2 Hb2 Hrest]; subst;
      [congruence|].
    rewrite Ht in Ht2. injection Ht2 as <-.
    rewrite Hb in Hb2. injection Hb2 as <- <-.
    destruct (IH _ _ Hrest) as [-> ->]. split; reflexivity.
Qed.

Lemma drains_values lists :
  forall q result order out,
    drains lists q result order out ->
    out = (result ++ map value order)%list.
Proof.
  induction 1 as [q result He|q result c q' result' order out He Ht Hb _ IH].
  - simpl. rewrite app_nil_r. reflexivity.
  - destruct (drain_body_top lists q result q' result' Hb)
      as (c' & Ht' & -> & _).
    rewrite Ht in Ht'. injection Ht' as <-.
    rewrite IH, <- app_assoc. reflexivity.
Qed.

Lemma drain_drains lists :
  forall fuel q result out,
    drain fuel lists q result = Done out ->
    drains lists q result (extraction_order fuel lists q) out.
Proof.
  induction fuel as [|fuel IH]; intros q result out; simpl;
    destruct (pq_empty q) eqn:Hq; try discriminate.
  - intros [= <-]. apply drains_leave, Hq.
  - intros [= <-]. apply drains_leave, Hq.
  - destruct (drain_body lists q result) as [[q' result']|] eqn:Hb;
      [|discriminate].
    destruct (drain_body_top lists q result q' result' Hb)
      as (c & Htop & -> & Hany).
    rewrite Htop, (Hany []). intros Hrun.
    eapply drains_pass; [exact Hq|exact Htop|exact Hb|].
    apply IH, Hrun.
Qed.

End EngineFacts.

(** ** Empty sources *)

Lemma concat_filter_nonempty (lists : list (list Z)) :
  concat (filter nonempty lists) = concat lists.
Proof.
  induction lists as [|[|v l] lists IH]; simpl; [reflexivity|exact IH|].
  rewrite IH. reflexivity.
Qed.

Lemma nth_error_filter_rank (lists : list (list Z)) (i : nat) (v : Z) (l : list Z) :
  nth_error lists i = Some (v :: l) ->
  nth_error (filter nonempty lists) (rank lists i) = Some (v :: l).
Proof.
  unfold rank. revert i. induction lists as [|a lists IH]; intros [|i]; simpl;
    try discriminate.
  - intros [= ->]. reflexivity.
  - intros H. destruct a; simpl; apply IH, H.
Qed.

Lemma rank_app_length (pre ls : list (list Z)) :
  rank (pre ++ ls) (length pre) = length (filter nonempty pre).
Proof.
  unfold rank. rewrite firstn_app, Nat.sub_diag, firstn_all, firstn_O, app_nil_r.
  reflexivity.
Qed.

Section EmptySources.
Context {Q : Type} {PQ : PriorityQueue Q} {VO : ValueOblivious Q}.

Lemma rename_source_value (lists : list (list Z)) (c : Element) :
  value (rename_source lists c) = value c.
Proof. reflexivity. Qed.

Lemma seed_from_filter (lists ls pre : list (list Z)) (q : Q) :
  lists = (pre ++ ls)%list ->
  pq_relabel (rename_source lists)
    (fold_left (seed_step lists) (seq (length pre) (length ls)) q) =
  fold_left (seed_step (filter nonempty lists))
    (seq (length (filter nonempty pre)) (length (filter nonempty ls)))
    (pq_relabel (rename_source lists) q).
Proof.
  revert pre q. induction ls as [|l ls IH]; intros pre q Hl; [reflexivity|].
  assert (Hnth : nth_error lists (length pre) = Some l).
  { subst lists. rewrite nth_error_app2, Nat.sub_diag by lia. reflexivity. }
  assert (Hl' : lists = ((pre ++ [l]) ++ ls)%list).
  { subst lists. rewrite <- app_assoc. reflexivity. }
  specialize (IH (pre ++ [l])%list).
  rewrite length_app, Nat.add_1_r in IH.
  cbn [length seq fold_left]. rewrite (seed_step_nth lists q _ l Hnth).
  rewrite (IH _ Hl'). rewrite filter_app.
  destruct l as [|v l0]; cbn [filter nonempty].
  - rewrite app_nil_r. reflexivity.
  - rewrite length_app, Nat.add_1_r. cbn [length seq fold_left].
    f_equal.
    assert (Hr : rank lists (length pre) = length (filter nonempty pre)).
    { rewrite Hl at 1. apply rank_app_length. }
    rewrite <- Hr.
    rewrite (seed_step_nth _ _ _ _ (nth_error_filter_rank lists _ v l0 Hnth)).
    rewrite relabel_push by apply rename_source_value. reflexivity.
Qed.

Lemma seed_filter (lists : list (list Z)) :
  pq_relabel (rename_source lists) (seed lists) = seed (filter nonempty lists).
Proof.
  unfold seed.
  rewrite (seed_from_filter lists lists [] pq_new eq_refl), relabel_new.
  reflexivity.
Qed.

Lemma drain_body_filter (lists : list (list Z)) (q : Q) (result : list Z) :
  cursor_invariant lists q result ->
  drain_body (filter nonempty lists) (pq_relabel (rename_source lists) q) result =
  match drain_body lists q result with
  | Some (q', result') => Some (pq_relabel (rename_source lists) q', result')
  | None => None
  end.
Proof.
  intros (_ & Hat & _). unfold drain_body.
  rewrite relabel_top by apply rename_source_value.
  destruct (pq_top q) as [c|] eqn:Htop; [|reflexivity].
  cbn [option_map rename_source value list_index element_index].
  assert (Hc : at_cursor lists c).
  { rewrite Forall_forall in Hat. apply Hat, top_in, Htop. }
  destruct Hc as (src & Hsrc & Hval). rewrite Hsrc.
  destruct src as [|v l]; [destruct (element_index c); discriminate|].
  rewrite (nth_error_filter_rank lists _ v l Hsrc).
  rewrite <- relabel_pop by apply rename_source_value.
  destruct (element_index c + 1 <? length (v :: l))%nat; [|reflexivity].
  destruct (nth_error (v :: l) (element_index c + 1)) as [v'|]; [|reflexivity].
  rewrite relabel_push by apply rename_source_value. reflexivity.
Qed.

Lemma drain_filter (lists : list (list Z)) :
  forall fuel q result,
    cursor_invariant lists q result ->
    drain fuel (filter nonempty lists) (pq_relabel (rename_source lists) q) result =
    drain fuel lists q result.
Proof.
  induction fuel as [|fuel IH]; intros q result Hinv; simpl;
    rewrite relabel_empty; destruct (pq_empty q) eqn:Hq; try reflexivity.
  rewrite (drain_body_filter lists q result Hinv).
  destruct (drain_body lists q result) as [[q' result']|] eqn:Hb; [|reflexivity].
  apply IH. eapply drain_body_invariant; eauto.
Qed.

Lemma MergeLists_filter (lists : list (list Z)) :
  MergeLists (filter nonempty lists) = MergeLists lists.
Proof.
  unfold MergeLists, MergeLists_run, total_length.
  rewrite concat_filter_nonempty, <- seed_filter.
  rewrite (drain_filter lists _ _ _ (seed_invariant lists)). reflexivity.
Qed.

End EmptySources.

(** For sorted sources the same holds over any queue. *)
Lemma MergeLists_filter_sorted {Q : Type} {PQ : PriorityQueue Q}
      (lists : list (list Z)) :
  Forall (Sorted Z.le) lists ->
  MergeLists (filter nonempty lists) = MergeLists lists.
Proof.
  intros Hs.
  assert (Hs' : Forall (Sorted Z.le) (filter nonempty lists)).
  { rewrite Forall_forall in *. intros l Hl.
    apply filter_In in Hl. apply Hs, Hl. }
  apply Sorted_Permutation_eq.
  - apply MergeLists_Sorted, Hs'.
  - apply MergeLists_Sorted, Hs.
  - rewrite !MergeLists_Permutation, concat_filter_nonempty. reflexivity.
Qed.

(** ** Writing *)

Lemma write_from (loc : locale) (data ls pre : list Z) (out : list ascii) :
  data = (pre ++ ls)%list ->
  Z.of_nat (length data) < 2 ^ 64 ->
  fold_left (write_step loc data) (seq (length pre) (length ls)) out =
  (out ++ join_spaces (map (print_int_in loc) ls))%list.
Proof.
  intros Hdata Hsize. revert pre out Hdata.
  induction ls as [|x ls IH]; intros pre out Hdata.
  - simpl. rewrite app_nil_r. reflexivity.
  - assert (Hnth : nth_error data (length pre) = Some x).
    { subst data. rewrite nth_error_app2, Nat.sub_diag by lia. reflexivity. }
    assert (Hdata' : data = ((pre ++ [x]) ++ ls)%list).
    { subst data. rewrite <- app_assoc. reflexivity. }
    assert (Hlen : length data = (length pre + S (length ls))%nat).
    { rewrite Hdata, length_app. reflexivity. }
    specialize (IH (pre ++ [x])%list).
    rewrite length_app, Nat.add_1_r in IH.
    cbn [length seq fold_left]. rewrite (IH _ Hdata').
    unfold write_step. rewrite Hnth.
    unfold size_minus_one. rewrite Z.mod_small by lia.
    destruct ls as [|y ls].
    + replace (Z.of_nat (length pre) <? Z.of_nat (length data) - 1) with false
        by (symmetry; apply Z.ltb_ge; simpl in Hlen; lia).
      simpl. rewrite app_nil_r. reflexivity.
    + replace (Z.of_nat (length pre) <? Z.of_nat (length data) - 1) with true
        by (symmetry; apply Z.ltb_lt; simpl in Hlen; lia).
      cbn [map join_spaces]. rewrite <- !app_assoc. reflexivity.
Qed.

Lemma add_grouping_none (fuel : nat) (sep : ascii) (rdigits : list ascii) :
  add_grouping fuel sep [] rdigits = rdigits.
Proof. destruct fuel; reflexivity. Qed.

(** A locale that groups no digits writes the plain numeral. *)
Lemma print_int_in_plain (loc : locale) (x : Z) :
  grouping loc = [] -> print_int_in loc x = print_int x.
Proof.
  intros Hg. unfold print_int_in, group_digits. rewrite Hg.
  destruct (print_int x) as [|c digits]; [reflexivity|].
  rewrite !add_grouping_none, !rev_involutive.
  destruct (Ascii.eqb c "-"); reflexivity.
Qed.

Lemma map_print_int_in_plain (loc : locale) (data : list Z) :
  grouping loc = [] -> map (print_int_in loc) data = map print_int data.
Proof.
  intros Hg. apply map_ext. intros x. apply print_int_in_plain, Hg.
Qed.

Lemma chars_of_uint_digits (d : Decimal.uint) :
  forallb isdigit (list_ascii_of_string (NilEmpty.string_of_uint d)) = true.
Proof. induction d; simpl; try rewrite IHd; reflexivity. Qed.

Lemma chars_of_uint_nonempty (d : Decimal.uint) :
  list_ascii_of_string (NilZero.string_of_uint d) <> [].
Proof. destruct d; discriminate. Qed.

Lemma NilZero_chars_digits (d : Decimal.uint) :
  forallb isdigit (list_ascii_of_string (NilZero.string_of_uint d)) = true.
Proof.
  destruct d; try apply chars_of_uint_digits. reflexivity.
Qed.




(** ** Reading numbers *)

Lemma skip_ws_length (buf : list ascii) :
  (length (skip_ws buf) <= length buf)%nat.
Proof.
  induction buf as [|c buf IH]; simpl; [lia|].
  destruct (isspace c); simpl; lia.
Qed.

Lemma skip_ws_spaces (buf : list ascii) :
  forallb isspace buf = true -> skip_ws buf = [].
Proof.
  induction buf as [|c buf IH]; simpl; [reflexivity|].
  destruct (isspace c); [exact IH|discriminate].
Qed.

Lemma take_digits_length (buf ds rest : list ascii) :
  take_digits buf = (ds, rest) -> length buf = (length ds + length rest)%nat.
Proof.
  revert ds rest. induction buf as [|c buf IH]; intros ds rest; simpl.
  - intros [= <- <-]. reflexivity.
  - destruct (isdigit c).
    + destruct (take_digits buf) as [ds' rest'] eqn:Ht.
      intros [= <- <-]. simpl. rewrite (IH ds' rest' eq_refl). reflexivity.
    + intros [= <- <-]. reflexivity.
Qed.

Lemma take_sign_length (buf : list ascii) :
  (length (snd (take_sign buf)) <= length buf)%nat.
Proof.
  destruct buf as [|c buf]; simpl; [lia|].
  destruct (Ascii.eqb c "-"); [simpl; lia|].
  destruct (Ascii.eqb c "+"); simpl; lia.
Qed.

(** A successful extraction consumes at least one character. *)
Lemma extract_int_consumes (s s' : istream) (x x' : Z) :
  extract_int s x = (s', x') -> failbit s' = false ->
  (length (buffer s') < length (buffer s))%nat.
Proof.
  unfold extract_int, sentry_skipws.
  destruct (good s).
  - pose proof (skip_ws_length (buffer s)) as Hskip.
    destruct (skip_ws (buffer s)) as [|c buf] eqn:Hb.
    + intros [= <- <-]. discriminate.
    + cbn [buffer].
      pose proof (take_sign_length (c :: buf)) as Hsign.
      destruct (take_sign (c :: buf)) as [negative buf1].
      destruct (take_digits buf1) as [ds buf2] eqn:Hd.
      apply take_digits_length in Hd. cbn [snd] in Hsign.
      destruct ds as [|d ds]; [intros [= <- <-]; discriminate|].
      simpl in Hd.
      destruct (_ <? INT_MIN); [intros [= <- <-]; discriminate|].
      destruct (INT_MAX <? _); intros [= <- <-]; [discriminate|].
      intros _. cbn [buffer]. lia.
  - intros [= <- <-]. discriminate.
Qed.

(** The bound on the passes in [parse_line] is never reached. *)
Lemma parse_numbers_total :
  forall fuel ss number current_list,
    (length (buffer ss) < fuel)%nat ->
    exists l, parse_numbers fuel ss number current_list = Some l.
Proof.
  induction fuel as [|fuel IH]; intros ss number current_list Hfuel; [lia|].
  simpl. destruct (extract_int ss number) as [ss' number'] eqn:He.
  destruct (failbit ss') eqn:Hf; [eauto|].
  apply IH. pose proof (extract_int_consumes _ _ _ _ He Hf). lia.
Qed.

Lemma parse_numbers_fuel_mono :
  forall fuel fuel' ss number current_list l,
    (fuel <= fuel')%nat ->
    parse_numbers fuel ss number current_list = Some l ->
    parse_numbers fuel' ss number current_list = Some l.
Proof.
  induction fuel as [|fuel IH]; intros fuel' ss number current_list l Hle;
    [discriminate|].
  destruct fuel' as [|fuel']; [lia|]. simpl.
  destruct (extract_int ss number) as [ss' number'].
  destruct (failbit ss'); [tauto|]. apply IH. lia.
Qed.

Lemma parse_line_spaces (line : list ascii) :
  forallb isspace line = true -> parse_line line = [].
Proof.
  intros Hsp. unfold parse_line. simpl.
  unfold extract_int, sentry_skipws. cbn [good open_stream eofbit failbit buffer negb andb].
  rewrite (skip_ws_spaces line Hsp). reflexivity.
Qed.

(** *** Numerals are read back as the numbers they were printed from *)

Lemma fold_of_uint_acc (d : Decimal.uint) (acc : positive) :
  fold_left digit_step (list_ascii_of_string (NilEmpty.string_of_uint d)) (Z.pos acc)
  = Z.pos (Pos.of_uint_acc d acc).
Proof.
  revert acc.
  induction d; intros acc; cbn [NilEmpty.string_of_uint list_ascii_of_string fold_left Pos.of_uint_acc];
    [reflexivity|..];
    rewrite <- IHd; f_equal; unfold digit_step, digit_value;
    rewrite ?Pos2Z.inj_add, ?Pos2Z.inj_mul;
    match goal with
    | |- context [Z.of_nat (nat_of_ascii ?c)] =>
      let v := eval vm_compute in (Z.of_nat (nat_of_ascii c)) in
      change (Z.of_nat (nat_of_ascii c)) with v
    end; lia.
Qed.

Lemma digits_value_of_uint (d : Decimal.uint) :
  digits_value (list_ascii_of_string (NilEmpty.string_of_uint d))
  = Z.of_N (Pos.of_uint d).
Proof.
  unfold digits_value. fold digit_step.
  induction d; cbn [NilEmpty.string_of_uint list_ascii_of_string fold_left Pos.of_uint];
    [reflexivity|exact IHd|..];
    cbn [Z.of_N]; rewrite <- fold_of_uint_acc; reflexivity.
Qed.

Lemma digit_is_plain (c : ascii) :
  isdigit c = true ->
  isspace c = false /\ Ascii.eqb c "-" = false /\ Ascii.eqb c "+" = false.
Proof.
  unfold isdigit, isspace. cbv zeta. intros H.
  apply andb_true_iff in H. destruct H as [Hlo Hhi].
  apply Nat.leb_le in Hlo. apply Nat.leb_le in Hhi.
  split; [|split].
  - apply orb_false_iff. split.
    + apply Nat.eqb_neq. lia.
    + apply andb_false_iff. right. apply Nat.leb_gt. lia.
  - destruct (Ascii.eqb_spec c "-") as [->|_]; [|reflexivity].
    change (nat_of_ascii "-") with 45%nat in Hlo. lia.
  - destruct (Ascii.eqb_spec c "+") as [->|_]; [|reflexivity].
    change (nat_of_ascii "+") with 43%nat in Hlo. lia.
Qed.

Lemma take_digits_app (ds rest : list ascii) :
  forallb isdigit ds = true -> ends_field rest ->
  take_digits (ds ++ rest) = (ds, rest).
Proof.
  intros Hds Hrest. induction ds as [|d ds IH]; cbn [app take_digits].
  - destruct rest as [|c rest]; [reflexivity|].
    cbn [ends_field] in Hrest. cbn [take_digits]. rewrite Hrest. reflexivity.
  - cbn [forallb] in Hds. apply andb_true_iff in Hds. destruct Hds as [Hd Hds].
    rewrite Hd, (IH Hds). reflexivity.
Qed.

Lemma skip_ws_app (ws buf : list ascii) (c : ascii) :
  forallb isspace ws = true -> isspace c = false ->
  skip_ws (ws ++ c :: buf) = c :: buf.
Proof.
  intros Hws Hc. induction ws as [|w ws IH]; cbn [app skip_ws].
  - rewrite Hc. reflexivity.
  - cbn [forallb] in Hws. apply andb_true_iff in Hws. destruct Hws as [Hw Hws].
    rewrite Hw. apply IH, Hws.
Qed.

(** What [print_int] writes: the digits of the absolute value, after a
    minus sign when the number is negative. *)
Lemma print_int_digits (x : Z) :
  exists d ds,
    print_int x = ((if x <? 0 then ["-"%char] else []) ++ d :: ds)%list /\
    forallb isdigit (d :: ds) = true /\
    digits_value (d :: ds) = Z.abs x.
Proof.
  assert (Hpos : forall p,
    exists d ds,
      list_ascii_of_string (NilZero.string_of_uint (Pos.to_uint p)) = d :: ds /\
      forallb isdigit (d :: ds) = true /\
      digits_value (d :: ds) = Z.pos p).
  { intros p.
    pose proof (NilZero_chars_digits (Pos.to_uint p)) as Hdig.
    pose proof (chars_of_uint_nonempty (Pos.to_uint p)) as Hne.
    pose proof (digits_value_of_uint (Pos.to_uint p)) as Hval.
    rewrite DecimalPos.Unsigned.of_to in Hval.
    assert (Heq : NilZero.string_of_uint (Pos.to_uint p)
                  = NilEmpty.string_of_uint (Pos.to_uint p)).
    { pose proof (DecimalPos.Unsigned.to_uint_nonnil p) as Hnil.
      destruct (Pos.to_uint p); [congruence|reflexivity..]. }
    rewrite <- Heq in Hval.
    destruct (list_ascii_of_string (NilZero.string_of_uint (Pos.to_uint p)))
      as [|d ds]; [congruence|].
    exists d, ds. split; [reflexivity|]. split; [exact Hdig|exact Hval]. }
  unfold print_int. destruct x as [|p|p]; cbn [Z.to_int NilZero.string_of_int].
  - exists "0"%char, []. repeat split.
  - destruct (Hpos p) as (d & ds & Heq & Hdig & Hval).
    exists d, ds. rewrite Heq. repeat split; assumption.
  - destruct (Hpos p) as (d & ds & Heq & Hdig & Hval).
    exists d, ds. cbn [list_ascii_of_string]. rewrite Heq.
    repeat split; assumption.
Qed.

(** Extraction reads a printed [int] back, skipping white space in front
    of it and stopping where the numeral ends. *)
Lemma extract_printed (x y : Z) (ws rest : list ascii) :
  INT_MIN <= x <= INT_MAX ->
  forallb isspace ws = true -> ends_field rest ->
  extract_int (mkIstream (ws ++ print_int x ++ rest) false false) y =
  (mkIstream rest (match rest with [] => true | _ => false end) false, x).
Proof.
  intros Hrange Hws Hrest.
  destruct (print_int_digits x) as (d & ds & Hprint & Hdig & Hval).
  pose proof Hdig as Hd. cbn [forallb] in Hd.
  apply andb_true_iff in Hd. destruct Hd as [Hd _].
  destruct (digit_is_plain d Hd) as (Hsp & Hminus & Hplus).
  unfold extract_int, sentry_skipws. cbn [good eofbit failbit negb andb buffer].
  rewrite Hprint.
  destruct (x <? 0) eqn:Hneg.
  - apply Z.ltb_lt in Hneg.
    cbn [app]. rewrite (skip_ws_app ws _ "-"%char Hws eq_refl).
    cbn [buffer take_sign]. rewrite Ascii.eqb_refl.
    change (d :: (ds ++ rest)%list) with ((d :: ds) ++ rest)%list.
    rewrite (take_digits_app (d :: ds) rest Hdig Hrest), Hval.
    replace (- Z.abs x) with x by lia.
    replace (x <? INT_MIN) with false by (symmetry; apply Z.ltb_ge; lia).
    replace (INT_MAX <? x) with false by (symmetry; apply Z.ltb_ge; lia).
    reflexivity.
  - apply Z.ltb_ge in Hneg.
    cbn [app]. rewrite (skip_ws_app ws _ d Hws Hsp).
    cbn [buffer take_sign]. rewrite Hminus, Hplus.
    change (d :: (ds ++ rest)%list) with ((d :: ds) ++ rest)%list.
    rewrite (take_digits_app (d :: ds) rest Hdig Hrest), Hval.
    replace (Z.abs x) with x by lia.
    replace (x <? INT_MIN) with false by (symmetry; apply Z.ltb_ge; lia).
    replace (INT_MAX <? x) with false by (symmetry; apply Z.ltb_ge; lia).
    reflexivity.
Qed.

Lemma parse_joined (data : list Z) :
  data <> [] ->
  Forall (fun x => INT_MIN <= x <= INT_MAX) data ->
  forall fuel number current_list ws,
    forallb isspace ws = true ->
    (length data < fuel)%nat ->
    parse_numbers fuel
      (mkIstream (ws ++ join_spaces (map print_int data)) false false)
      number current_list
    = Some (current_list ++ data)%list.
Proof.
  induction data as [|x data IH]; [congruence|]. intros _ Hrange.
  inversion Hrange as [|? ? Hx Hdata]; subst.
  intros fuel number current_list ws Hws Hfuel.
  destruct fuel as [|fuel]; [lia|]. simpl in Hfuel.
  destruct data as [|y data].
  - cbn [map join_spaces parse_numbers].
    rewrite <- (app_nil_r (print_int x)).
    rewrite (extract_printed x number ws [] Hx Hws I). cbn [failbit].
    destruct fuel as [|fuel]; [lia|]. reflexivity.
  - change (map print_int (x :: y :: data))
      with (print_int x :: map print_int (y :: data)).
    set (tail := join_spaces (map print_int (y :: data))) in *.
    change (join_spaces (print_int x :: map print_int (y :: data)))
      with (print_int x ++ space :: tail)%list.
    cbn [parse_numbers].
    rewrite (extract_printed x number ws (space :: tail) Hx Hws eq_refl).
    cbn [failbit].
    change (space :: tail) with ([space] ++ tail)%list.
    rewrite (IH ltac:(discriminate) Hdata fuel x (current_list ++ [x])%list
                [space] eq_refl ltac:(simpl in *; lia)).
    rewrite <- app_assoc. reflexivity.
Qed.

Lemma join_spaces_length (data : list Z) :
  (length data <= length (join_spaces (map print_int data)))%nat.
Proof.
  induction data as [|x data IH]; [simpl; lia|].
  destruct (print_int_digits x) as (d & ds & Hprint & _).
  assert (Hx : (1 <= length (print_int x))%nat).
  { rewrite Hprint, length_app. simpl. lia. }
  destruct data as [|y data]; [simpl; lia|].
  cbn [map join_spaces] in *. rewrite length_app. simpl in *. lia.
Qed.

(** The line [WriteOutputFile] writes is one [ReadInputFile] reads back. *)
Lemma parse_line_joined (data : list Z) :
  Forall (fun x => INT_MIN <= x <= INT_MAX) data ->
  parse_line (join_spaces (map print_int data)) = data.
Proof.
  intros Hrange. destruct data as [|x data]; [reflexivity|].
  unfold parse_line, open_stream.
  rewrite (parse_joined (x :: data) ltac:(discriminate) Hrange _ 0 [] [] eq_refl).
  - reflexivity.
  - pose proof (join_spaces_length (x :: data)). lia.
Qed.

(** ** Reading lines *)

Lemma split_line_count (buf line rest : list ascii) (pending_chars : bool) :
  split_line buf = (line, Some rest) ->
  count_lines pending_chars buf = S (count_lines false rest).
Proof.
  revert line pending_chars. induction buf as [|c buf IH]; intros line p; simpl;
    [discriminate|].
  destruct (Ascii.eqb c newline).
  - intros [= <- <-]. reflexivity.
  - destruct (split_line buf) as [line' rest'] eqn:Hs.
    intros [= <- ->]. apply (IH line' true eq_refl).
Qed.

Lemma split_line_last (buf line : list ascii) :
  split_line buf = (line, None) ->
  count_lines true buf = 1%nat /\
  (line = [] -> buf = []) /\
  (line <> [] -> count_lines false buf = 1%nat).
Proof.
  revert line. induction buf as [|c buf IH]; intros line; simpl.
  - intros [= <-]. repeat split; congruence.
  - destruct (Ascii.eqb c newline); [discriminate|].
    destruct (split_line buf) as [line' rest'] eqn:Hs.
    intros [= <- ->]. destruct (IH line' eq_refl) as (H1 & _ & _).
    repeat split; congruence.
Qed.

(** What [getline] does to the number of lines left, and when it fails. *)
Lemma getline_lines (s s' : istream) (str line : list ascii) :
  getline s str = (s', line) ->
  if failbit s' then stream_lines s = O
  else stream_lines s = S (stream_lines s').
Proof.
  unfold getline, sentry_noskipws, stream_lines.
  destruct (good s) eqn:Hg; cbv beta iota.
  - destruct (split_line (buffer s)) as [l [rest|]] eqn:Hs.
    + intros [= <- <-]. cbn [failbit good eofbit negb andb buffer].
      apply (split_line_count _ _ _ false Hs).
    + destruct (split_line_last _ _ Hs) as (_ & Hnil & Hone).
      destruct l as [|c l].
      * intros [= <- <-]. cbn [failbit]. rewrite (Hnil eq_refl). reflexivity.
      * intros [= <- <-]. cbn [failbit good eofbit negb andb].
        apply Hone. discriminate.
  - intros [= <- <-]. cbn [failbit]. reflexivity.
Qed.

(** The reading loop fails exactly when fewer lines are left than it has
    passes to make, and then with [UnexpectedEndOfFile]. *)
Lemma read_lists_error :
  forall k s line sorted_lists,
    (is_error (read_lists k s line sorted_lists) <-> (stream_lines s < k)%nat) /\
    (is_error (read_lists k s line sorted_lists) ->
     read_lists k s line sorted_lists = Err UnexpectedEndOfFile).
Proof.
  induction k as [|k IH]; intros s line sorted_lists; simpl.
  - split; [split; [intros []|lia]|intros []].
  - destruct (getline s line) as [s' line'] eqn:Hg.
    pose proof (getline_lines _ _ _ _ Hg) as Hl.
    destruct (failbit s').
    + simpl. split; [split; [lia|trivial]|reflexivity].
    + destruct (IH s' line' (sorted_lists ++ [parse_line line'])%list) as [Hiff Herr].
      split; [|exact Herr]. rewrite Hiff, Hl. lia.
Qed.

(** With enough lines the loop returns one source per line read. *)
Lemma read_lists_length :
  forall k s line sorted_lists out,
    read_lists k s line sorted_lists = Ok out ->
    length out = (length sorted_lists + k)%nat.
Proof.
  induction k as [|k IH]; intros s line sorted_lists out; simpl.
  - intros [= <-]. lia.
  - destruct (getline s line) as [s' line'].
    destruct (failbit s'); [discriminate|].
    intros H. rewrite (IH _ _ _ _ H), length_app. simpl. lia.
Qed.

(** A blank line that is present is read as an empty source. *)
Lemma read_lists_blank (k : nat) (ws rest line : list ascii)
      (sorted_lists : list (list Z)) :
  forallb isspace ws = true -> ~ In newline ws ->
  read_lists (S k) (mkIstream (ws ++ newline :: rest) false false) line sorted_lists
  = read_lists k (mkIstream rest false false) ws (sorted_lists ++ [[]])%list.
Proof.
  intros Hws Hnl.
  assert (Hs : split_line (ws ++ newline :: rest) = (ws, Some rest)).
  { clear Hws. induction ws as [|w ws IH]; cbn [app split_line].
    - rewrite Ascii.eqb_refl. reflexivity.
    - destruct (Ascii.eqb_spec w newline) as [->|_];
        [exfalso; apply Hnl; left; reflexivity|].
      rewrite IH; [reflexivity|]. intros Hin. apply Hnl. right. exact Hin. }
  cbn [read_lists]. unfold getline, sentry_noskipws.
  cbn [good eofbit failbit negb andb buffer]. rewrite Hs. cbn [failbit].
  rewrite (parse_line_spaces ws Hws). reflexivity.
Qed.

(** *** [ReadInputFile] *)

Lemma ReadInputFile_unfold (content : string) :
  ReadInputFile (Some content) =
  let s1 := count_stream content in
  if failbit s1 then
    if eofbit s1 then Ok [] else Err CannotReadCount
  else read_lists (Z.to_nat (count_value content)) (ignore_line s1) [] [].
Proof.
  unfold ReadInputFile, count_stream, count_value.
  destruct (extract_int (open_stream (list_ascii_of_string content)) 0).
  reflexivity.
Qed.

Lemma ReadInputFile_spaces (content : string) :
  forallb isspace (list_ascii_of_string content) = true ->
  ReadInputFile (Some content) = Ok [].
Proof.
  intros Hws. unfold ReadInputFile, extract_int, sentry_skipws.
  cbn [good open_stream eofbit failbit negb andb buffer].
  rewrite (skip_ws_spaces _ Hws). reflexivity.
Qed.

(** ** The claims about the merge engine *)

Lemma Sorted_adjacent (l : list Z) :
  Sorted Z.le l ->
  forall i a b, nth_error l i = Some a -> nth_error l (S i) = Some b -> a <= b.
Proof.
  induction 1 as [|x l Hs IH Hhd]; intros i a b Ha Hb.
  - destruct i; discriminate.
  - destruct i as [|i].
    + injection Ha as <-. destruct l as [|y l]; [discriminate|].
      injection Hb as <-. inversion Hhd; assumption.
    + apply (IH i a b); assumption.
Qed.

Lemma count_occ_concat (lists : list (list Z)) (v : Z) :
  count_occ Z.eq_dec (concat lists) v =
  list_sum (map (fun l => count_occ Z.eq_dec l v) lists).
Proof.
  induction lists as [|l lists IH]; simpl; [reflexivity|].
  rewrite count_occ_app, IH. reflexivity.
Qed.

Lemma total_length_sum {Q : Type} {PQ : PriorityQueue Q} (lists : list (list Z)) :
  total_length lists = list_sum (map (@length Z) lists).
Proof.
  unfold total_length. induction lists as [|l lists IH]; simpl; [reflexivity|].
  rewrite length_app, IH. reflexivity.
Qed.

Lemma MergeLists_nil {Q : Type} {PQ : PriorityQueue Q} : MergeLists [] = [].
Proof. exact (MergeLists_single []). Qed.

(** C1.  When every source is sorted in ascending order, the run of
    [MergeLists] ends with a result and that result is non-decreasing:
    every element is at most its successor. *)
Theorem MergeLists_non_decreasing
        (Q : Type) (PQ : PriorityQueue Q) (lists : list (list Z)) :
  Forall non_decreasing lists ->
  MergeLists_run (total_length lists) lists = Done (MergeLists lists) /\
  non_decreasing (MergeLists lists) /\
  (forall i a b,
      nth_error (MergeLists lists) i = Some a ->
      nth_error (MergeLists lists) (S i) = Some b -> a <= b).
Proof.
  intros Hs. pose proof (MergeLists_Sorted lists Hs) as Hout.
  split; [apply MergeLists_run_total|]. split; [exact Hout|].
  apply Sorted_adjacent, Hout.
Qed.

(** C1 on the sources of the first test of [main]. *)
Lemma MergeLists_non_decreasing_witness :
  Forall non_decreasing [[1; 4; 5]; [2; 6; 8; 9]; [0; 3; 7; 10; 11]] /\
  non_decreasing
    (@MergeLists _ FirstMinQueue [[1; 4; 5]; [2; 6; 8; 9]; [0; 3; 7; 10; 11]]).
Proof.
  assert (H : Forall non_decreasing [[1; 4; 5]; [2; 6; 8; 9]; [0; 3; 7; 10; 11]]).
  { unfold non_decreasing. repeat constructor; discriminate. }
  split; [exact H|].
  exact (proj1 (proj2 (MergeLists_non_decreasing _ FirstMinQueue _ H))).
Defined.

(** C2.  The result of [MergeLists] holds the values of all the sources
    with their multiplicities: it is a permutation of the sources laid
    end to end, and each value occurs in it as often as it occurs in all
    the sources together.  (Sortedness of the sources is not needed.) *)
Theorem MergeLists_multiset
        (Q : Type) (PQ : PriorityQueue Q) (lists : list (list Z)) :
  MergeLists_run (total_length lists) lists = Done (MergeLists lists) /\
  Permutation (MergeLists lists) (concat lists) /\
  (forall v,
      count_occ Z.eq_dec (MergeLists lists) v =
      list_sum (map (fun src => count_occ Z.eq_dec src v) lists)).
Proof.
  split; [apply MergeLists_run_total|].
  pose proof (MergeLists_Permutation lists) as HP.
  split; [exact HP|]. intros v.
  rewrite <- count_occ_concat.
  revert v. apply (Permutation_count_occ Z.eq_dec), HP.
Qed.

(** C3.  For any sources, sorted or not, the drain loop ends after at
    most [M] passes, [M] being the sum of the lengths of the sources, no
    pass runs into undefined behaviour, and the result has exactly [M]
    elements. *)
Theorem MergeLists_terminates
        (Q : Type) (PQ : PriorityQueue Q) (lists : list (list Z)) :
  (forall fuel, (list_sum (map (@length Z) lists) <= fuel)%nat ->
                MergeLists_run fuel lists = Done (MergeLists lists)) /\
  (forall fuel, MergeLists_run fuel lists <> Undefined) /\
  length (MergeLists lists) = list_sum (map (@length Z) lists).
Proof.
  rewrite <- total_length_sum. split; [|split].
  - intros fuel Hfuel.
    apply (drain_fuel_mono lists (total_length lists) fuel _ _ _ Hfuel).
    apply MergeLists_run_total.
  - intros fuel. apply drain_defined, seed_invariant.
  - apply Permutation_length, MergeLists_Permutation.
Qed.

(** C4.  With no source the result is empty.  Seeding builds a candidate
    for exactly the non-empty sources, so no candidate refers to an empty
    one; no run meets undefined behaviour; the result is that of merging
    the non-empty sources alone, for sorted sources over any queue and
    for any sources over a queue that reads [value] alone; and when every
    source is empty the result is empty. *)
Theorem MergeLists_empty_sources
        (Q : Type) (PQ : PriorityQueue Q) (lists : list (list Z)) :
  @MergeLists Q PQ [] = [] /\
  Permutation (contents (seed lists)) (first_candidates 0 lists) /\
  (forall c, In c (contents (seed lists)) ->
             exists v l, nth_error lists (list_index c) = Some (v :: l)) /\
  (forall fuel, MergeLists_run fuel lists <> Undefined) /\
  (Forall non_decreasing lists ->
   MergeLists lists = MergeLists (filter nonempty lists)) /\
  (forall VO : ValueOblivious Q,
      MergeLists lists = MergeLists (filter nonempty lists)) /\
  (Forall (fun src => src = []) lists -> MergeLists lists = []).
Proof.
  split; [apply MergeLists_nil|]. split; [apply seed_contents|].
  split; [|split; [|split; [|split]]].
  - intros c Hc.
    apply (Permutation_in _ (seed_contents lists)) in Hc.
    apply first_candidates_index in Hc.
    destruct Hc as (_ & _ & l & Hl). rewrite Nat.sub_0_r in Hl. eauto.
  - intros fuel. apply drain_defined, seed_invariant.
  - intros Hs. symmetry. apply MergeLists_filter_sorted, Hs.
  - intros VO. symmetry. apply MergeLists_filter.
  - intros Hall. apply Permutation_nil. symmetry.
    rewrite (MergeLists_Permutation lists).
    induction Hall as [|l lists -> _ IH]; [reflexivity|exact IH].
Qed.

(** C4 on the sources of the third test of [main], over [FirstMinQueue]. *)
Lemma MergeLists_empty_sources_witness :
  @MergeLists _ FirstMinQueue [[10; 20]; []; [5; 15]] =
  @MergeLists _ FirstMinQueue [[10; 20]; [5; 15]].
Proof.
  exact (proj1 (proj2 (proj2 (proj2 (proj2 (proj2
           (MergeLists_empty_sources _ FirstMinQueue [[10; 20]; []; [5; 15]]))))))
         FirstMinOblivious).
Defined.

(** C5.  Merging a single source returns that source, element for
    element (whether or not it is sorted). *)
Theorem MergeLists_single_source
        (Q : Type) (PQ : PriorityQueue Q) (s : list Z) :
  MergeLists_run (length s) [s] = Done s /\ MergeLists [s] = s.
Proof.
  pose proof (MergeLists_single s) as H. split; [|exact H].
  pose proof (MergeLists_run_total [s]) as Hrun.
  rewrite H in Hrun. unfold total_length in Hrun.
  cbn [concat] in Hrun. rewrite app_nil_r in Hrun. exact Hrun.
Qed.

(** C6 (as amended).  [MergeLists] is deterministic: any two evaluations
    on the same sources extract the same candidates in the same order and
    return the same output, which is the values of the candidates in
    extraction order; and every input has such an evaluation.  The
    comparator, though, implements no tie-break: it puts neither of two
    equal-valued candidates above the other, whatever their source and
    position, so the order among them is the one the operations of the
    queue give. *)
Theorem MergeLists_deterministic
        (Q : Type) (PQ : PriorityQueue Q) (lists : list (list Z)) :
  (forall order1 out1 order2 out2,
      evaluates lists order1 out1 -> evaluates lists order2 out2 ->
      order1 = order2 /\ out1 = out2) /\
  (forall order out, evaluates lists order out -> out = map value order) /\
  evaluates lists (extraction_order (total_length lists) lists (seed lists))
            (MergeLists lists) /\
  (forall v i j i' j',
      Element_gt (mkElement v i j) (mkElement v i' j') = false).
Proof.
  split; [|split; [|split]].
  - intros order1 out1 order2 out2 H1 H2.
    exact (drains_functional lists _ _ _ _ H1 _ _ H2).
  - intros order out H. exact (drains_values lists _ _ _ _ H).
  - apply drain_drains, MergeLists_run_total.
  - intros v i j i' j'. apply Element_gt_false. simpl. lia.
Qed.

(** C6, the claim as stated fails: two different candidates of equal
    value, neither of which the comparator puts above the other. *)
Lemma comparator_has_no_tie_break :
  mkElement 5 0 0 <> mkElement 5 1 0 /\
  Element_gt (mkElement 5 0 0) (mkElement 5 1 0) = false /\
  Element_gt (mkElement 5 1 0) (mkElement 5 0 0) = false.
Proof. split; [discriminate|split; reflexivity]. Qed.

(** X13.  When every source is sorted in ascending order, the result does
    not depend on how the priority queue orders equal values: it is the
    same for every queue that meets the interface. *)
Theorem MergeLists_queue_independent
        (Q1 : Type) (PQ1 : PriorityQueue Q1)
        (Q2 : Type) (PQ2 : PriorityQueue Q2) (lists : list (list Z)) :
  Forall non_decreasing lists ->
  @MergeLists Q1 PQ1 lists = @MergeLists Q2 PQ2 lists.
Proof.
  intros Hs. apply Sorted_Permutation_eq.
  - apply MergeLists_Sorted, Hs.
  - apply MergeLists_Sorted, Hs.
  - rewrite !MergeLists_Permutation. reflexivity.
Qed.

(** X13 on the sources of the second test of [main]. *)
Lemma MergeLists_queue_independent_witness :
  Forall non_decreasing [[-5; -1; 0]; [-10; 0; 0; 1]; [5; 10]; [2; 3; 3]] /\
  @MergeLists _ FirstMinQueue [[-5; -1; 0]; [-10; 0; 0; 1]; [5; 10]; [2; 3; 3]] =
  @MergeLists _ LastMinQueue [[-5; -1; 0]; [-10; 0; 0; 1]; [5; 10]; [2; 3; 3]].
Proof.
  assert (H : Forall non_decreasing
                     [[-5; -1; 0]; [-10; 0; 0; 1]; [5; 10]; [2; 3; 3]]).
  { unfold non_decreasing. repeat constructor; discriminate. }
  split; [exact H|].
  exact (MergeLists_queue_independent _ FirstMinQueue _ LastMinQueue _ H).
Defined.

(** C7.  For sources sorted in ascending order, the drain loop keeps this
    invariant: no source has two candidates in the queue; every candidate
    is the element at its cursor in its source, and no element of that
    source from the cursor on is smaller; the output so far together
    with the elements from the cursors on is the input.  It holds after
    seeding, every pass of the loop can be made and keeps it, and so it
    holds before every pass, up to the state from which the loop leaves
    with its result. *)
Theorem drain_loop_invariant
        (Q : Type) (PQ : PriorityQueue Q) (lists : list (list Z)) :
  Forall non_decreasing lists ->
  heap_invariant lists (seed lists) [] /\
  (forall q result,
      heap_invariant lists q result -> pq_empty q = false ->
      exists q' result',
        drain_body lists q result = Some (q', result') /\
        heap_invariant lists q' result') /\
  (forall n q result,
      drain_state n lists = Some (q, result) ->
      heap_invariant lists q result) /\
  (exists n q,
      drain_state n lists = Some (q, MergeLists lists) /\ pq_empty q = true).
Proof.
  intros Hs. split; [|split; [|split]].
  - apply heap_invariant_of_cursor; [exact Hs|apply seed_invariant].
  - intros q result Hinv Hne.
    apply cursor_of_heap_invariant in Hinv.
    destruct (drain_body_step lists q result Hinv Hne)
      as (c & q' & _ & Hb & _ & Hinv').
    exists q', (result ++ [value c])%list. split; [exact Hb|].
    apply heap_invariant_of_cursor; assumption.
  - intros n q result Hn.
    apply heap_invariant_of_cursor; [exact Hs|].
    eapply drain_state_invariant, Hn.
  - apply (drain_leaves_from_state lists (total_length lists) O (seed lists) []);
      [reflexivity|apply MergeLists_run_total].
Qed.

(** C7 on the third test of [main], after the first pass of the loop. *)
Lemma drain_loop_invariant_witness :
  Forall non_decreasing [[10; 20]; []; [5; 15]] /\
  @heap_invariant _ FirstMinQueue [[10; 20]; []; [5; 15]]
    [mkElement 10 0 0; mkElement 15 2 1] [5].
Proof.
  assert (H : Forall non_decreasing [[10; 20]; []; [5; 15]]).
  { unfold non_decreasing. repeat constructor; discriminate. }
  split; [exact H|].
  exact (proj1 (proj2 (proj2 (drain_loop_invariant _ FirstMinQueue _ H)))
               1%nat [mkElement 10 0 0; mkElement 15 2 1] [5] eq_refl).
Defined.

(** ** The claims about the adapters *)






(** C8 (as amended).  [ReadInputFile] fails when the file cannot be
    opened, when the extraction of the count fails before the end of
    input is reached, and when a count [K] was extracted and fewer than
    [K] list lines follow the count line; it fails in no case other than
    a file that cannot be opened, a count that cannot be extracted, or
    fewer than [K] list lines.  A file that is empty or holds only white
    space gives zero sources without error; a blank line that is present
    is an empty source; and a successful read with count [K] gives [K]
    sources ([0] for a negative [K]). *)
Theorem ReadInputFile_errors :
  ReadInputFile None = Err CannotOpenInput /\
  (forall content,
      failbit (count_stream content) = true ->
      eofbit (count_stream content) = false ->
      ReadInputFile (Some content) = Err CannotReadCount) /\
  (forall content,
      failbit (count_stream content) = false ->
      (list_lines content < Z.to_nat (count_value content))%nat ->
      ReadInputFile (Some content) = Err UnexpectedEndOfFile) /\
  (forall file,
      is_error (ReadInputFile file) ->
      file = None \/
      exists content,
        file = Some content /\
        (failbit (count_stream content) = true \/
         (list_lines content < Z.to_nat (count_value content))%nat)) /\
  (forall content,
      forallb isspace (list_ascii_of_string content) = true ->
      ReadInputFile (Some content) = Ok []) /\
  (forall k ws rest line sorted_lists,
      forallb isspace ws = true -> ~ In newline ws ->
      read_lists (S k) (mkIstream (ws ++ newline :: rest) false false)
                 line sorted_lists
      = read_lists k (mkIstream rest false false) ws (sorted_lists ++ [[]])%list) /\
  (forall content sorted_lists,
      failbit (count_stream content) = false ->
      ReadInputFile (Some content) = Ok sorted_lists ->
      length sorted_lists = Z.to_nat (count_value content)).
Proof.
  split; [reflexivity|].
  split; [|split; [|split; [|split; [|split]]]].
  - intros content Hf He. rewrite ReadInputFile_unfold. cbv zeta.
    rewrite Hf, He. reflexivity.
  - intros content Hf Hlines. rewrite ReadInputFile_unfold. cbv zeta.
    rewrite Hf.
    destruct (read_lists_error (Z.to_nat (count_value content))
                (ignore_line (count_stream content)) [] []) as [Hiff Herr].
    apply Herr, Hiff, Hlines.
  - intros [content|] Herr; [right|left; reflexivity].
    exists content. split; [reflexivity|].
    rewrite ReadInputFile_unfold in Herr. cbv zeta in Herr.
    destruct (failbit (count_stream content)); [left; reflexivity|right].
    apply (read_lists_error _ _ [] []), Herr.
  - apply ReadInputFile_spaces.
  - apply read_lists_blank.
  - intros content sorted_lists Hf Hok.
    rewrite ReadInputFile_unfold in Hok. cbv zeta in Hok. rewrite Hf in Hok.
    apply read_lists_length in Hok. exact Hok.
Qed.

(** C8 (as amended) on a file that announces two lists and holds one. *)
Lemma ReadInputFile_errors_witness :
  failbit (count_stream (CreateInputFile 2 ["1 2"%string])) = false /\
  (list_lines (CreateInputFile 2 ["1 2"%string])
   < Z.to_nat (count_value (CreateInputFile 2 ["1 2"%string])))%nat /\
  ReadInputFile (Some (CreateInputFile 2 ["1 2"%string]))
  = Err UnexpectedEndOfFile.
Proof.
  assert (Hf : failbit (count_stream (CreateInputFile 2 ["1 2"%string])) = false)
    by reflexivity.
  assert (Hl : (list_lines (CreateInputFile 2 ["1 2"%string])
                < Z.to_nat (count_value (CreateInputFile 2 ["1 2"%string])))%nat)
    by (vm_compute; lia).
  split; [exact Hf|]. split; [exact Hl|].
  exact (proj1 (proj2 (proj2 ReadInputFile_errors)) _ Hf Hl).
Defined.

(** C8, the claim as stated fails: a file that holds one blank line is
    not empty and its count line cannot be parsed, yet reading it gives
    zero sources and no error. *)
Lemma ReadInputFile_blank_file :
  String newline EmptyString <> EmptyString /\
  failbit (count_stream (String newline EmptyString)) = true /\
  ReadInputFile (Some (String newline EmptyString)) = Ok [].
Proof. split; [discriminate|]. split; reflexivity. Qed.

(** C10.  When the extraction of the count succeeds with a negative
    value, [ReadInputFile] gives zero sources and no error, whatever
    follows the count; the merge of zero sources is empty, so
    [MergeAndWrite] writes what [WriteOutputFile] writes for no data. *)
Theorem ReadInputFile_negative_count
        (Q : Type) (PQ : PriorityQueue Q) (loc : locale)
        (content : string) (writable : bool) :
  failbit (count_stream content) = false ->
  count_value content < 0 ->
  ReadInputFile (Some content) = Ok [] /\
  @MergeLists Q PQ [] = [] /\
  @MergeAndWrite Q PQ loc (Some content) writable = WriteOutputFile loc writable [].
Proof.
  intros Hf Hneg.
  assert (Hread : ReadInputFile (Some content) = Ok []).
  { rewrite ReadInputFile_unfold. cbv zeta. rewrite Hf.
    replace (Z.to_nat (count_value content)) with O by lia. reflexivity. }
  split; [exact Hread|]. split; [apply MergeLists_nil|].
  unfold MergeAndWrite. rewrite Hread, MergeLists_nil. reflexivity.
Qed.

(** C10 on a file whose count is -2. *)
Lemma ReadInputFile_negative_count_witness :
  failbit (count_stream "-2 1 2") = false /\
  count_value "-2 1 2" < 0 /\
  ReadInputFile (Some "-2 1 2"%string) = Ok [] /\
  @MergeAndWrite _ FirstMinQueue comma_locale (Some "-2 1 2"%string) true
  = Ok (String newline EmptyString).
Proof.
  assert (Hf : failbit (count_stream "-2 1 2") = false) by reflexivity.
  assert (Hn : count_value "-2 1 2" < 0) by reflexivity.
  split; [exact Hf|]. split; [exact Hn|].
  pose proof (ReadInputFile_negative_count _ FirstMinQueue comma_locale
                "-2 1 2" true Hf Hn)
    as (H1 & _ & H3).
  split; [exact H1|exact H3].
Defined.

(** ** The tests of [main] *)

Example test_basic :
  @RunTest _ FirstMinQueue (all_files_open classic_locale)
           3 ["1 4 5"; "2 6 8 9"; "0 3 7 10 11"]%string
           "0 1 2 3 4 5 6 7 8 9 10 11" = Passed.
Proof. reflexivity. Qed.

Example test_negatives_and_duplicates :
  @RunTest _ FirstMinQueue (all_files_open classic_locale)
           4 ["-5 -1 0"; "-10 0 0 1"; "5 10"; "2 3 3"]%string
           "-10 -5 -1 0 0 0 1 2 3 3 5 10" = Passed.
Proof. reflexivity. Qed.

Example test_empty_list :
  @RunTest _ FirstMinQueue (all_files_open classic_locale)
           3 ["10 20"; ""; "5 15"]%string "5 10 15 20" = Passed.
Proof. reflexivity. Qed.

Example test_single_list :
  @RunTest _ FirstMinQueue (all_files_open classic_locale)
           1 ["1 2 3 4 5"]%string "1 2 3 4 5" = Passed.
Proof. reflexivity. Qed.

Example test_all_empty :
  @RunTest _ FirstMinQueue (all_files_open classic_locale)
           2 [""; ""]%string "" = Passed.
Proof. reflexivity. Qed.

Example test_negatives_and_duplicates_last_min :
  @RunTest _ LastMinQueue (all_files_open classic_locale)
           4 ["-5 -1 0"; "-10 0 0 1"; "5 10"; "2 3 3"]%string
           "-10 -5 -1 0 0 0 1 2 3 3 5 10" = Passed.
Proof. reflexivity. Qed.

(** A sign with no digit at the end of input, and a count beyond [int] at
    the end of input, end the extraction at the end of input: zero
    sources, no error.  The same count followed by a newline is an
    error. *)
Example read_sign_only : ReadInputFile (Some "-"%string) = Ok [].
Proof. reflexivity. Qed.

Example read_count_out_of_range_at_end :
  ReadInputFile (Some "99999999999"%string) = Ok [].
Proof. reflexivity. Qed.

Example read_count_out_of_range :
  ReadInputFile (Some (String.append "99999999999" (String newline "")))
  = Err CannotReadCount.
Proof. reflexivity. Qed.

(** With sources that are not sorted the result can depend on the queue. *)
Example unsorted_sources_queue_dependent :
  @MergeLists _ FirstMinQueue [[1; 5]; [1; 0]] = [1; 1; 0; 5] /\
  @MergeLists _ LastMinQueue [[1; 5]; [1; 0]] = [1; 0; 1; 5].
Proof. split; reflexivity. Qed.

(** * Further properties of the merge engine *)

Section EngineMore.
Context {Q : Type} {PQ : PriorityQueue Q}.
Implicit Types (lists : list (list Z)) (q : Q) (c : Element).

(** From any state the loop reaches, the loop runs on to the result. *)
Lemma drain_state_continues lists :
  forall n q result,
    drain_state n lists = Some (q, result) ->
    exists fuel, drain fuel lists q result = Done (MergeLists lists).
Proof.
  induction n as [|n IH]; intros q result; simpl.
  - intros [= <- <-]. exists (total_length lists). apply MergeLists_run_total.
  - destruct (drain_state n lists) as [[q0 r0]|]; [|discriminate].
    destruct (pq_empty q0) eqn:Hq0; [discriminate|]. intros Hb.
    destruct (IH q0 r0 eq_refl) as (fuel & Hrun).
    destruct fuel as [|fuel]; simpl in Hrun; rewrite Hq0 in Hrun;
      [discriminate|].
    rewrite Hb in Hrun. exists fuel. exact Hrun.
Qed.

Lemma drain_state_length lists :
  forall n q result,
    drain_state n lists = Some (q, result) -> length result = n.
Proof.
  induction n as [|n IH]; intros q result; simpl.
  - intros [= <- <-]. reflexivity.
  - destruct (drain_state n lists) as [[q0 r0]|]; [|discriminate].
    destruct (pq_empty q0); [discriminate|]. intros Hb.
    destruct (drain_body_top lists q0 r0 q result Hb) as (c & _ & -> & _).
    rewrite length_app, (IH q0 r0 eq_refl). simpl. lia.
Qed.

Lemma drain_state_prefix lists n q result :
  drain_state n lists = Some (q, result) ->
  result = firstn n (MergeLists lists).
Proof.
  intros Hn.
  destruct (drain_state_continues lists n q result Hn) as (fuel & Hrun).
  apply drain_extraction_order in Hrun.
  rewrite Hrun, <- (drain_state_length lists n q result Hn).
  rewrite firstn_app, Nat.sub_diag, firstn_all. cbn [firstn].
  rewrite app_nil_r. reflexivity.
Qed.

Lemma pending_length lists q result :
  cursor_invariant lists q result ->
  (length result + length (pending lists (contents q)))%nat = total_length lists.
Proof.
  intros (_ & _ & Hperm). apply Permutation_length in Hperm.
  rewrite length_app in Hperm. exact Hperm.
Qed.

Lemma at_cursor_pending lists (cs : list Element) :
  Forall (at_cursor lists) cs -> (length cs <= length (pending lists cs))%nat.
Proof.
  induction 1 as [|c cs (src & Hsrc & Hval) _ IH]; [simpl; lia|].
  rewrite pending_cons, (unconsumed_at_cursor lists c src Hsrc Hval).
  rewrite length_app. simpl. lia.
Qed.

Lemma candidates_bounded lists q result :
  cursor_invariant lists q result ->
  (length (contents q) <= length lists)%nat.
Proof.
  intros (Hnd & Hat & _).
  apply Nat.le_trans with (length (seq 0 (length lists)));
    [|rewrite length_seq; lia].
  rewrite <- (length_map list_index (contents q)).
  apply NoDup_incl_length; [exact Hnd|].
  intros i Hi. apply in_map_iff in Hi. destruct Hi as (c & <- & Hc).
  rewrite Forall_forall in Hat. destruct (Hat c Hc) as (src & Hsrc & _).
  apply in_seq. split; [lia|]. simpl.
  apply nth_error_Some. congruence.
Qed.

(** The state in which the loop leaves. *)
Lemma drain_state_exit lists :
  exists q, drain_state (total_length lists) lists = Some (q, MergeLists lists)
            /\ pq_empty q = true.
Proof.
  destruct (drain_leaves_from_state lists (total_length lists) O (seed lists) []
              (MergeLists lists) eq_refl (MergeLists_run_total lists))
    as (m & q & Hm & Hq).
  pose proof (drain_state_length lists m q _ Hm) as Hlen.
  rewrite (Permutation_length (MergeLists_Permutation lists)) in Hlen.
  fold (total_length lists) in Hlen. subst m. eauto.
Qed.

End EngineMore.

Lemma Permutation_concat_lists (lists lists' : list (list Z)) :
  Permutation lists lists' -> Permutation (concat lists) (concat lists').
Proof.
  induction 1 as [|l ls ls' _ IH|l1 l2 ls|ls1 ls2 ls3 _ IH1 _ IH2]; simpl.
  - reflexivity.
  - rewrite IH. reflexivity.
  - rewrite !app_assoc. apply Permutation_app_tail, Permutation_app_comm.
  - rewrite IH1. exact IH2.
Qed.

(** X1.  [operator>] is a strict weak order, as [std::priority_queue]
    asks of its comparator: no candidate is above itself, above is
    transitive, and two candidates are unordered exactly when their
    values are equal, so being unordered is transitive too. *)
Theorem Element_gt_strict_weak_order :
  (forall a, Element_gt a a = false) /\
  (forall a b c, Element_gt a b = true -> Element_gt b c = true ->
                 Element_gt a c = true) /\
  (forall a b, Element_gt a b = true -> Element_gt b a = false) /\
  (forall a b, (Element_gt a b = false /\ Element_gt b a = false)
               <-> value a = value b) /\
  (forall a b c,
      Element_gt a b = false -> Element_gt b a = false ->
      Element_gt b c = false -> Element_gt c b = false ->
      Element_gt a c = false /\ Element_gt c a = false).
Proof.
  split; [|split; [|split; [|split]]].
  - intros a. apply Element_gt_false. lia.
  - intros a b c Hab Hbc. apply Element_gt_true in Hab, Hbc.
    apply Element_gt_true. lia.
  - intros a b Hab. apply Element_gt_true in Hab. apply Element_gt_false. lia.
  - intros a b. rewrite !Element_gt_false. lia.
  - intros a b c. rewrite !Element_gt_false. lia.
Qed.

(** X2.  For sources sorted in ascending order, [MergeLists] returns the
    one non-decreasing arrangement of all their elements: any
    non-decreasing list that is a permutation of the sources laid end to
    end is the result. *)
Theorem MergeLists_is_the_sorted_arrangement
        (Q : Type) (PQ : PriorityQueue Q) (lists : list (list Z)) (out : list Z) :
  Forall non_decreasing lists ->
  non_decreasing out ->
  Permutation out (concat lists) ->
  MergeLists lists = out.
Proof.
  intros Hs Hout HP. apply Sorted_Permutation_eq.
  - apply MergeLists_Sorted, Hs.
  - exact Hout.
  - rewrite MergeLists_Permutation. symmetry. exact HP.
Qed.

(** X2 on the third test of [main]. *)
Lemma MergeLists_is_the_sorted_arrangement_witness :
  @MergeLists _ LastMinQueue [[10; 20]; []; [5; 15]] = [5; 10; 15; 20].
Proof.
  apply MergeLists_is_the_sorted_arrangement.
  - unfold non_decreasing. repeat constructor; discriminate.
  - unfold non_decreasing. repeat constructor; discriminate.
  - simpl. apply Permutation_cons_app with (l1 := [10; 20]) (l2 := [15]).
    simpl. apply perm_skip, perm_swap.
Defined.

(** X3.  For sorted sources the merge can be made in stages, and the
    order in which the sources are given does not matter: merging two
    groups of sources and then merging the two results gives what
    merging all of them at once gives, and so does merging any
    rearrangement of the sources. *)
Theorem MergeLists_in_stages
        (Q : Type) (PQ : PriorityQueue Q) (group1 group2 : list (list Z)) :
  Forall non_decreasing group1 ->
  Forall non_decreasing group2 ->
  MergeLists [MergeLists group1; MergeLists group2]
  = MergeLists (group1 ++ group2) /\
  (forall lists', Permutation (group1 ++ group2) lists' ->
                  MergeLists lists' = MergeLists (group1 ++ group2)).
Proof.
  intros H1 H2.
  assert (H12 : Forall (Sorted Z.le) (group1 ++ group2))
    by (apply Forall_app; split; assumption).
  split.
  - apply Sorted_Permutation_eq.
    + apply MergeLists_Sorted.
      repeat constructor; apply MergeLists_Sorted; assumption.
    + apply MergeLists_Sorted, H12.
    + rewrite !MergeLists_Permutation. cbn [concat].
      rewrite !MergeLists_Permutation, app_nil_r, concat_app. reflexivity.
  - intros lists' HP. apply Sorted_Permutation_eq.
    + apply MergeLists_Sorted.
      eapply Permutation_Forall; [exact HP|exact H12].
    + apply MergeLists_Sorted, H12.
    + rewrite !MergeLists_Permutation. symmetry.
      apply Permutation_concat_lists, HP.
Qed.

(** X3 on the sources of the first test of [main], split after the
    first. *)
Lemma MergeLists_in_stages_witness :
  @MergeLists _ FirstMinQueue
    [@MergeLists _ FirstMinQueue [[1; 4; 5]];
     @MergeLists _ FirstMinQueue [[2; 6; 8; 9]; [0; 3; 7; 10; 11]]]
  = @MergeLists _ FirstMinQueue ([[1; 4; 5]] ++ [[2; 6; 8; 9]; [0; 3; 7; 10; 11]]).
Proof.
  assert (H1 : Forall non_decreasing [[1; 4; 5]]).
  { unfold non_decreasing. repeat constructor; discriminate. }
  assert (H2 : Forall non_decreasing [[2; 6; 8; 9]; [0; 3; 7; 10; 11]]).
  { unfold non_decreasing. repeat constructor; discriminate. }
  exact (proj1 (MergeLists_in_stages _ FirstMinQueue _ _ H1 H2)).
Defined.

(** X4.  The output only grows at its end and the loop makes exactly [M]
    passes: before pass [n + 1] the output is the first [n] elements of
    the final result, the loop leaves after [M] passes with the result,
    and there is no pass after that. *)
Theorem drain_output_is_prefix
        (Q : Type) (PQ : PriorityQueue Q) (lists : list (list Z)) :
  (forall n q result,
      drain_state n lists = Some (q, result) ->
      result = firstn n (MergeLists lists) /\ length result = n /\
      (n <= total_length lists)%nat) /\
  (exists q,
      drain_state (total_length lists) lists = Some (q, MergeLists lists) /\
      pq_empty q = true) /\
  drain_state (S (total_length lists)) lists = None.
Proof.
  split; [|split].
  - intros n q result Hn.
    pose proof (drain_state_length lists n q result Hn) as Hlen.
    split; [apply (drain_state_prefix lists n q), Hn|]. split; [exact Hlen|].
    pose proof (pending_length lists q result
                  (drain_state_invariant lists n q result Hn)). lia.
  - apply drain_state_exit.
  - destruct (drain_state_exit lists) as (q & Hq & He).
    simpl. rewrite Hq, He. reflexivity.
Qed.

(** X5.  The queue never holds more candidates than there are sources,
    nor more than there are elements still to be emitted: before pass
    [n + 1] its size is at most [K] and at most [M - n]. *)
Theorem queue_size_bounded
        (Q : Type) (PQ : PriorityQueue Q) (lists : list (list Z)) :
  forall n q result,
    drain_state n lists = Some (q, result) ->
    (length (contents q) <= length lists)%nat /\
    (length (contents q) <= total_length lists - n)%nat.
Proof.
  intros n q result Hn.
  pose proof (drain_state_invariant lists n q result Hn) as Hinv.
  split; [apply (candidates_bounded lists q result Hinv)|].
  pose proof (pending_length lists q result Hinv) as Hlen.
  rewrite (drain_state_length lists n q result Hn) in Hlen.
  destruct Hinv as (_ & Hat & _).
  pose proof (at_cursor_pending lists (contents q) Hat). lia.
Qed.

(** X5 on the third test of [main], after the first pass. *)
Lemma queue_size_bounded_witness :
  (length (@contents _ FirstMinQueue [mkElement 10 0 0; mkElement 15 2 1]) <= 3)%nat.
Proof.
  exact (proj1 (queue_size_bounded _ FirstMinQueue [[10; 20]; []; [5; 15]]
                  1%nat [mkElement 10 0 0; mkElement 15 2 1] [5] eq_refl)).
Defined.

(** ** The order within each source *)

Lemma subsequence_app_r (s l t : list Z) :
  subsequence s l -> subsequence s (l ++ t).
Proof.
  induction 1; simpl;
    [apply subsequence_nil|apply subsequence_skip|apply subsequence_take];
    assumption.
Qed.

Lemma subsequence_snoc (s l : list Z) (x : Z) :
  subsequence s l -> subsequence (s ++ [x]) (l ++ [x]).
Proof.
  induction 1 as [l|s y l _ IH|y s l _ IH]; simpl.
  - induction l as [|y l IH]; simpl.
    + apply subsequence_take, subsequence_nil.
    + apply subsequence_skip, IH.
  - apply subsequence_skip, IH.
  - apply subsequence_take, IH.
Qed.

Lemma first_candidates_covers (ls : list (list Z)) :
  forall i k v l,
    nth_error ls k = Some (v :: l) ->
    In (i + k)%nat (map list_index (first_candidates i ls)).
Proof.
  induction ls as [|a ls IH]; intros i k v l; [destruct k; discriminate|].
  destruct k as [|k]; simpl.
  - intros [= ->]. left. simpl. lia.
  - intros Hk. specialize (IH (S i) k v l Hk).
    replace (i + S k)%nat with (S i + k)%nat by lia.
    destruct a; [exact IH|right; exact IH].
Qed.

Section SourceOrder.
Context {Q : Type} {PQ : PriorityQueue Q}.
Implicit Types (lists : list (list Z)) (q : Q) (c : Element).

(** The two ways a pass can go: the source of the candidate on top has a
    next element, which is pushed, or it is exhausted. *)
Lemma drain_body_cases lists q result :
  cursor_invariant lists q result -> pq_empty q = false ->
  exists c src,
    pq_top q = Some c /\
    nth_error lists (list_index c) = Some src /\
    nth_error src (element_index c) = Some (value c) /\
    Permutation (contents q) (c :: contents (pq_pop q)) /\
    ((exists v,
         nth_error src (S (element_index c)) = Some v /\
         drain_body lists q result =
         Some (pq_push (mkElement v (list_index c) (S (element_index c)))
                       (pq_pop q),
               (result ++ [value c])%list))
     \/
     ((length src <= S (element_index c))%nat /\
      drain_body lists q result = Some (pq_pop q, (result ++ [value c])%list))).
Proof.
  intros (_ & Hat & _) Hne.
  destruct (empty_false_top q Hne) as (c & Htop).
  assert (Hc : at_cursor lists c).
  { rewrite Forall_forall in Hat. apply Hat, top_in, Htop. }
  destruct Hc as (src & Hsrc & Hval).
  exists c, src. split; [exact Htop|]. split; [exact Hsrc|].
  split; [exact Hval|]. split; [apply pop_spec, Htop|].
  unfold drain_body. rewrite Htop, Hsrc, Nat.add_1_r.
  destruct (S (element_index c) <? length src)%nat eqn:Hlt.
  - apply Nat.ltb_lt in Hlt.
    destruct (nth_error src (S (element_index c))) as [v|] eqn:Hv;
      [|apply nth_error_None in Hv; lia].
    left. exists v. split; reflexivity.
  - apply Nat.ltb_ge in Hlt. right. split; [exact Hlt|reflexivity].
Qed.

Lemma seed_order_kept lists : order_kept lists (seed lists) [].
Proof.
  pose proof (seed_contents lists) as HP. split.
  - intros c src Hc _.
    apply (Permutation_in _ HP), first_candidates_index in Hc.
    destruct Hc as (_ & -> & _). constructor.
  - intros i src Hi Hnot. destruct src as [|v l]; [constructor|].
    exfalso. apply Hnot.
    eapply Permutation_in;
      [symmetry; exact (Permutation_map list_index HP)|].
    exact (first_candidates_covers lists O i v l Hi).
Qed.

Lemma drain_body_order_kept lists q result q' result' :
  cursor_invariant lists q result /\ order_kept lists q result ->
  pq_empty q = false ->
  drain_body lists q result = Some (q', result') ->
  cursor_invariant lists q' result' /\ order_kept lists q' result'.
Proof.
  intros (Hinv & Hcand & Hdone) Hne Hbody.
  split; [eapply drain_body_invariant; eassumption|].
  destruct (drain_body_cases lists q result Hinv Hne)
    as (c & src & Htop & Hsrc & Hval & Hpop & Hcase).
  assert (Hc : subsequence (firstn (S (element_index c)) src)
                           (result ++ [value c])).
  { rewrite (firstn_snoc_nth_error src _ _ Hval).
    apply subsequence_snoc, (Hcand c src); [apply top_in, Htop|exact Hsrc]. }
  assert (Hold : forall c0, In c0 (contents (pq_pop q)) -> In c0 (contents q)).
  { intros c0 H0. eapply Permutation_in; [symmetry; exact Hpop|].
    right. exact H0. }
  assert (Hidx : forall i,
             i <> list_index c ->
             ~ In i (map list_index (contents (pq_pop q))) ->
             ~ In i (map list_index (contents q))).
  { intros i Hi Hnot Hin.
    apply (Permutation_in _ (Permutation_map list_index Hpop)) in Hin.
    destruct Hin as [Heq|Hin]; [apply Hi; symmetry; exact Heq|exact (Hnot Hin)]. }
  destruct Hcase as [(v & Hv & Hb)|(Hlen & Hb)];
    rewrite Hb in Hbody; injection Hbody as <- <-.
  - pose proof (push_spec (mkElement v (list_index c) (S (element_index c)))
                          (pq_pop q)) as Hpush.
    split.
    + intros c0 src0 H0 Hsrc0.
      apply (Permutation_in _ Hpush) in H0. destruct H0 as [<-|H0].
      * cbn [list_index element_index] in *.
        rewrite Hsrc in Hsrc0. injection Hsrc0 as <-. exact Hc.
      * apply subsequence_app_r, (Hcand c0 src0 (Hold c0 H0) Hsrc0).
    + intros i src0 Hi Hnot.
      assert (Hnot' : ~ In i (list_index c
                              :: map list_index (contents (pq_pop q)))).
      { intros Hin. apply Hnot.
        eapply Permutation_in;
          [symmetry; exact (Permutation_map list_index Hpush)|exact Hin]. }
      apply subsequence_app_r, (Hdone i src0 Hi).
      apply Hidx; intros H; apply Hnot'; [left; symmetry; exact H|right; exact H].
  - split.
    + intros c0 src0 H0 Hsrc0.
      apply subsequence_app_r, (Hcand c0 src0 (Hold c0 H0) Hsrc0).
    + intros i src0 Hi Hnot.
      destruct (Nat.eq_dec i (list_index c)) as [->|Hneq].
      * rewrite Hsrc in Hi. injection Hi as <-.
        rewrite firstn_all2 in Hc by exact Hlen. exact Hc.
      * apply subsequence_app_r, (Hdone i src0 Hi), Hidx; assumption.
Qed.

Lemma MergeLists_subsequence lists (i : nat) (src : list Z) :
  nth_error lists i = Some src -> subsequence src (MergeLists lists).
Proof.
  intros Hi.
  destruct (drain_rule
              (fun q r => cursor_invariant lists q r /\ order_kept lists q r)
              lists (drain_body_order_kept lists)
              (total_length lists) (seed lists) [] (MergeLists lists)
              (conj (seed_invariant lists) (seed_order_kept lists))
              (MergeLists_run_total lists))
    as (q & Hq & _ & _ & Hdone).
  apply (Hdone i src Hi). apply empty_spec in Hq. rewrite Hq. intros [].
Qed.

End SourceOrder.

(** X6.  Whether or not the sources are sorted, the result keeps the
    order within each source: every source is a subsequence of the
    result. *)
Theorem MergeLists_keeps_source_order
        (Q : Type) (PQ : PriorityQueue Q)
        (lists : list (list Z)) (i : nat) (src : list Z) :
  nth_error lists i = Some src ->
  subsequence src (MergeLists lists).
Proof. apply MergeLists_subsequence. Qed.

(** X6 on two sources that are not sorted. *)
Lemma MergeLists_keeps_source_order_witness :
  subsequence [3; 1] (@MergeLists _ FirstMinQueue [[3; 1]; [2; 2]]).
Proof.
  exact (MergeLists_keeps_source_order _ FirstMinQueue
           [[3; 1]; [2; 2]] 0%nat [3; 1] eq_refl).
Defined.

(** * Further properties of the adapters *)













(** ** What ends the list of a line *)








(** ** The whole pipeline *)

Lemma extract_int_is_int (s s' : istream) (x x' : Z) :
  extract_int s x = (s', x') -> failbit s' = false -> is_int x'.
Proof.
  unfold extract_int, sentry_skipws, is_int.
  destruct (good s).
  - destruct (skip_ws (buffer s)) as [|c buf].
    + intros [= <- <-]. discriminate.
    + cbn [buffer].
      destruct (take_sign (c :: buf)) as [negative buf1].
      destruct (take_digits buf1) as [ds buf2].
      destruct ds as [|d ds]; [intros [= <- <-]; discriminate|].
      set (v := if negative then _ else _).
      destruct (v <? INT_MIN) eqn:Hlo; [intros [= <- <-]; discriminate|].
      destruct (INT_MAX <? v) eqn:Hhi; intros [= <- <-]; [discriminate|].
      intros _. apply Z.ltb_ge in Hlo, Hhi. lia.
  - intros [= <- <-]. discriminate.
Qed.

Lemma parse_numbers_is_int :
  forall fuel ss number current_list l,
    Forall is_int current_list ->
    parse_numbers fuel ss number current_list = Some l ->
    Forall is_int l.
Proof.
  induction fuel as [|fuel IH]; intros ss number current_list l Hall;
    [discriminate|]. simpl.
  destruct (extract_int ss number) as [ss' number'] eqn:He.
  destruct (failbit ss') eqn:Hf.
  - intros [= <-]. exact Hall.
  - apply IH. apply Forall_app. split; [exact Hall|].
    constructor; [|constructor]. exact (extract_int_is_int _ _ _ _ He Hf).
Qed.

Lemma parse_line_is_int (line : list ascii) : Forall is_int (parse_line line).
Proof.
  unfold parse_line.
  destruct (parse_numbers _ _ _ _) as [l|] eqn:Hp; [|constructor].
  exact (parse_numbers_is_int _ _ _ _ _ (Forall_nil _) Hp).
Qed.

Lemma read_lists_is_int :
  forall k s line sorted_lists out,
    Forall (Forall is_int) sorted_lists ->
    read_lists k s line sorted_lists = Ok out ->
    Forall (Forall is_int) out.
Proof.
  induction k as [|k IH]; intros s line sorted_lists out Hall; simpl.
  - intros [= <-]. exact Hall.
  - destruct (getline s line) as [s' line'].
    destruct (failbit s'); [discriminate|].
    apply IH. apply Forall_app. split; [exact Hall|].
    constructor; [apply parse_line_is_int|constructor].
Qed.

Lemma ReadInputFile_is_int (file : option string) (lists : list (list Z)) :
  ReadInputFile file = Ok lists -> Forall (Forall is_int) lists.
Proof.
  destruct file as [content|]; [|discriminate].
  rewrite ReadInputFile_unfold. cbv zeta.
  destruct (failbit (count_stream content)).
  - destruct (eofbit (count_stream content)); [|discriminate].
    intros [= <-]. constructor.
  - apply read_lists_is_int. constructor.
Qed.

Lemma concat_is_int (lists : list (list Z)) :
  Forall (Forall is_int) lists -> Forall is_int (concat lists).
Proof.
  induction 1 as [|l lists Hl _ IH]; simpl; [constructor|].
  apply Forall_app. split; assumption.
Qed.

Lemma drop_final_newline_written (body : list ascii) :
  drop_final_newline (string_of_list_ascii (body ++ [newline]))
  = string_of_list_ascii body.
Proof.
  unfold drop_final_newline.
  rewrite list_ascii_of_string_of_list_ascii, rev_unit, Ascii.eqb_refl,
    rev_involutive.
  reflexivity.
Qed.

Section Pipeline.
Context {Q : Type} {PQ : PriorityQueue Q}.

Lemma MergeAndWrite_written (loc : locale) (file : option string)
      (lists : list (list Z)) :
  grouping loc = [] ->
  ReadInputFile file = Ok lists ->
  Z.of_nat (length (concat lists)) < 2 ^ 64 ->
  MergeAndWrite loc file true =
  Ok (string_of_list_ascii
        (join_spaces (map print_int (MergeLists lists)) ++ [newline])).
Proof.
  intros Hloc Hread Hsize. unfold MergeAndWrite, WriteOutputFile. rewrite Hread.
  assert (Hsize' : Z.of_nat (length (MergeLists lists)) < 2 ^ 64).
  { rewrite (Permutation_length (MergeLists_Permutation lists)). exact Hsize. }
  rewrite (write_from loc (MergeLists lists) (MergeLists lists) [] [] eq_refl
                      Hsize'
           : fold_left (write_step loc (MergeLists lists))
                       (seq 0 (length (MergeLists lists))) [] = _).
  rewrite (map_print_int_in_plain loc _ Hloc). reflexivity.
Qed.

Lemma MergeLists_is_int (lists : list (list Z)) :
  Forall (Forall is_int) lists -> Forall is_int (MergeLists lists).
Proof.
  intros Hall.
  eapply Permutation_Forall;
    [symmetry; apply MergeLists_Permutation|apply concat_is_int, Hall].
Qed.

End Pipeline.

(** X10.  On streams whose locale groups no digits: when [ReadInputFile]
    gives sources, [MergeAndWrite] writes one line, the numerals of the
    merge separated by spaces, then a newline.  Read as a list line,
    that line is the merge, which has every element of the sources and
    is non-decreasing when the sources are sorted.  When the destination
    cannot be opened the call fails with the output error. *)
Theorem MergeAndWrite_writes_the_merge
        (Q : Type) (PQ : PriorityQueue Q) (loc : locale)
        (file : option string) (lists : list (list Z)) :
  grouping loc = [] ->
  ReadInputFile file = Ok lists ->
  Z.of_nat (length (concat lists)) < 2 ^ 64 ->
  MergeAndWrite loc file true =
    Ok (string_of_list_ascii
          (list_ascii_of_string (list_line (MergeLists lists)) ++ [newline])) /\
  parse_line (list_ascii_of_string (list_line (MergeLists lists)))
  = MergeLists lists /\
  Permutation (MergeLists lists) (concat lists) /\
  (Forall non_decreasing lists -> non_decreasing (MergeLists lists)) /\
  MergeAndWrite loc file false = Err CannotOpenOutput.
Proof.
  intros Hloc Hread Hsize. unfold list_line.
  rewrite list_ascii_of_string_of_list_ascii.
  split; [exact (MergeAndWrite_written loc file lists Hloc Hread Hsize)|].
  split.
  { apply parse_line_joined, MergeLists_is_int.
    exact (ReadInputFile_is_int file lists Hread). }
  split; [apply MergeLists_Permutation|].
  split; [apply MergeLists_Sorted|].
  unfold MergeAndWrite. rewrite Hread. reflexivity.
Qed.

(** X10 on the file of the third test of [main], in the classic locale. *)
Lemma MergeAndWrite_writes_the_merge_witness :
  @MergeAndWrite _ FirstMinQueue classic_locale
    (Some (CreateInputFile 3 ["10 20"; ""; "5 15"]%string)) true
  = Ok (string_of_list_ascii
          (list_ascii_of_string
             (list_line (@MergeLists _ FirstMinQueue [[10; 20]; []; [5; 15]]))
           ++ [newline])).
Proof.
  assert (Hloc : grouping classic_locale = []) by reflexivity.
  assert (Hread : ReadInputFile
                    (Some (CreateInputFile 3 ["10 20"; ""; "5 15"]%string))
                  = Ok [[10; 20]; []; [5; 15]]) by reflexivity.
  assert (Hsize : Z.of_nat (length (concat [[10; 20]; []; [5; 15]])) < 2 ^ 64)
    by reflexivity.
  exact (proj1 (MergeAndWrite_writes_the_merge
                  _ FirstMinQueue _ _ _ Hloc Hread Hsize)).
Defined.

(** X11.  What [RunTest] reports, in a locale that groups no digits.  It
    reports the error of the step that fails: the input file that cannot
    be made or cannot be opened, the read that fails, the output file
    that cannot be opened for writing.  Otherwise it reports success
    exactly when the expected text is the merge of the sources read,
    written as numerals separated by spaces (the final newline of the
    output is dropped before the comparison), and failure when it is
    not; when the output file cannot be opened for reading, the text
    compared is the empty string. *)
Theorem RunTest_report
        (Q : Type) (PQ : PriorityQueue Q) (env : test_env)
        (n : Z) (input_lists : list string) (expected_output : string) :
  grouping (env_locale env) = [] ->
  (input_creatable env = false ->
   RunTest env n input_lists expected_output = Errored CannotCreateTestFile) /\
  (input_creatable env = true -> input_readable env = false ->
   RunTest env n input_lists expected_output = Errored CannotOpenInput) /\
  (input_creatable env = true -> input_readable env = true ->
   forall e,
     ReadInputFile (Some (CreateInputFile n input_lists)) = Err e ->
     RunTest env n input_lists expected_output = Errored e) /\
  (input_creatable env = true -> input_readable env = true ->
   forall lists,
     ReadInputFile (Some (CreateInputFile n input_lists)) = Ok lists ->
     Z.of_nat (length (concat lists)) < 2 ^ 64 ->
     (output_writable env = false ->
      RunTest env n input_lists expected_output = Errored CannotOpenOutput) /\
     (output_writable env = true -> output_readable env = true ->
      RunTest env n input_lists expected_output =
      if String.eqb (list_line (MergeLists lists)) expected_output
      then Passed else Failed) /\
     (output_writable env = true -> output_readable env = false ->
      RunTest env n input_lists expected_output =
      if String.eqb EmptyString expected_output then Passed else Failed)).
Proof.
  intros Hloc. unfold RunTest. split; [|split; [|split]].
  - intros ->. reflexivity.
  - intros -> ->. reflexivity.
  - intros -> -> e Hread. unfold MergeAndWrite. rewrite Hread. reflexivity.
  - intros -> -> lists Hread Hsize. split; [|split].
    + intros ->. unfold MergeAndWrite, WriteOutputFile. rewrite Hread.
      reflexivity.
    + intros -> ->.
      rewrite (MergeAndWrite_written _ _ lists Hloc Hread Hsize).
      unfold ReadOutputFile. cbv zeta.
      rewrite drop_final_newline_written. reflexivity.
    + intros -> ->.
      rewrite (MergeAndWrite_written _ _ lists Hloc Hread Hsize).
      reflexivity.
Qed.

(** X11 on the fifth test of [main] with every file opening, and with an
    output file that cannot be opened for writing. *)
Lemma RunTest_report_witness :
  @RunTest _ FirstMinQueue (all_files_open classic_locale)
           2 [""; ""]%string "" = Passed /\
  @RunTest _ FirstMinQueue (mkTestEnv classic_locale true true false true)
           2 [""; ""]%string "" = Errored CannotOpenOutput.
Proof.
  assert (Hread : ReadInputFile (Some (CreateInputFile 2 [""; ""]%string))
                  = Ok [[]; []]) by reflexivity.
  assert (Hsize : Z.of_nat (length (concat [[]; []] : list Z)) < 2 ^ 64)
    by reflexivity.
  split.
  - exact (proj1 (proj2 (proj2 (proj2 (proj2
             (RunTest_report _ FirstMinQueue (all_files_open classic_locale)
                             2 [""; ""]%string "" eq_refl)))
             eq_refl eq_refl _ Hread Hsize)) eq_refl eq_refl).
  - exact (proj1 (proj2 (proj2 (proj2
             (RunTest_report _ FirstMinQueue
                (mkTestEnv classic_locale true true false true)
                2 [""; ""]%string "" eq_refl)))
             eq_refl eq_refl _ Hread Hsize) eq_refl).
Defined.
